(** * isp-kit: the application supervisor and the bootstrap host parser

    A shallow embedding of [app/app.go] (the [Application] type with
    [New], [AddRunners], [AddClosers], [Run] and [Shutdown]) and of
    [parseConfigServiceHosts] from [bootstrap/boostrap.go].

    Go strings are byte strings and are modelled by [string]; slices are
    lists; a Go [error] value is either [nil] ([None]) or a value of the
    type [error] below ([Some e]). *)

From Stdlib Require Import Ascii ZArith.
From stdpp Require Import base tactics option list strings pretty.

Local Open Scope Z_scope.
Local Open Scope nat_scope.

(** ** Errors ([github.com/pkg/errors]) *)

(** An error is a leaf carrying its message ([errors.New], [errors.Errorf]
    or any error produced by a collaborator) or a [withMessage] wrapper
    around a cause. *)
Inductive error : Type :=
| errorString (msg : string)
| withMessage (cause : error) (msg : string).

(** The [Error] method of a wrapper is its message, a colon and a space,
    then the message of its cause. *)
Fixpoint Error (e : error) : string :=
  match e with
  | errorString msg => msg
  | withMessage cause msg => msg +:+ ": " +:+ Error cause
  end.

Definition errors_New (msg : string) : error := errorString msg.

(** [errors.WithMessage(err, msg)]: [nil] stays [nil]. *)
Definition WithMessage (err : option error) (msg : string) : option error :=
  match err with
  | None => None
  | Some e => Some (withMessage e msg)
  end.

(** A Go result pair [(T, error)] with exactly one side set. *)
Inductive result (A : Type) : Type :=
| Ok (a : A)
| Err (e : error).
Arguments Ok {A} a.
Arguments Err {A} e.

(** ** [strings.Split] and [net.JoinHostPort] *)

(** [strings.Split(s, sep)] for a one-byte separator: [cur] is the segment
    read so far.  The result always has one more element than [s] has
    separators, so splitting the empty string gives one empty segment. *)
Fixpoint genSplit (sep : ascii) (s : string) (cur : string) : list string :=
  match s with
  | EmptyString => [cur]
  | String c s' =>
      if Ascii.eqb c sep then cur :: genSplit sep s' EmptyString
      else genSplit sep s' (cur +:+ String c EmptyString)
  end.

Definition Split (s : string) (sep : ascii) : list string :=
  genSplit sep s EmptyString.

(** [strings.Count(s, sep)] for a one-byte separator. *)
Fixpoint Count (s : string) (sep : ascii) : nat :=
  match s with
  | EmptyString => 0
  | String c s' => (if Ascii.eqb c sep then 1 else 0) + Count s' sep
  end.

(** [bytealg.IndexByteString]: index of the first [c] in [s], or [-1]. *)
Fixpoint IndexByteString (s : string) (c : ascii) : Z :=
  match s with
  | EmptyString => (-1)%Z
  | String b s' =>
      if Ascii.eqb b c then 0%Z
      else let r := IndexByteString s' c in
           if (r <? 0)%Z then (-1)%Z else (r + 1)%Z
  end.

(** [net.JoinHostPort]: a host holding a colon is taken for an IPv6
    literal and is bracketed. *)
Definition JoinHostPort (host port : string) : string :=
  if (0 <=? IndexByteString host ":")%Z
  then "[" +:+ host +:+ "]:" +:+ port
  else host +:+ ":" +:+ port.

(** ** [bootstrap.parseConfigServiceHosts] *)

(** Modelled from the spec: [ConfigServiceAddr] is declared outside the
    sources at hand; both fields are split as strings by the function
    below. *)
Record ConfigServiceAddr : Type := {
  IP : string;
  Port : string;
}.

(** The [for i, host := range hosts] loop.  [ports[i]] out of range is a
    run-time panic, rendered by [None]. *)
Fixpoint hostsLoop (hosts ports : list string) (i : nat) (arr : list string)
  : option (list string) :=
  match hosts with
  | [] => Some arr
  | host :: hosts' =>
      match ports !! i with
      | None => None
      | Some port => hostsLoop hosts' ports (S i) (arr ++ [JoinHostPort host port])
      end
  end.

Definition parseConfigServiceHosts (cfg : ConfigServiceAddr)
  : option (result (list string)) :=
  let hosts := Split (IP cfg) ";" in
  let ports := Split (Port cfg) ";" in
  if negb (length hosts =? length ports)
  then Some (Err (errors_New "len(hosts) != len(ports)"))
  else Ok <$> hostsLoop hosts ports 0 [].


(** ** Contexts ([context.WithCancel], [errgroup.WithContext]) *)

(** [New] builds a cancellable context over [context.Background] and
    derives the group's context from it; [a.ctx], the context every
    runner receives, is the derived one.  A derived context is done as
    soon as its parent is, so the pair has three states: none is done;
    only the derived one is done (the group cancelled it); both are. *)
Inductive Context : Type :=
| Active
| GroupDone
| AllDone.

(** Whether [a.ctx] is done. *)
Definition done (c : Context) : bool :=
  match c with
  | Active => false
  | GroupDone | AllDone => true
  end.

Definition newContext : Context := Active.

(** [a.cancel]: the [CancelFunc] of the parent.  The first call cancels
    the parent and, through it, the derived context; later calls do
    nothing. *)
Definition cancel (c : Context) : Context :=
  match c with
  | AllDone => c
  | Active | GroupDone => AllDone
  end.

(** The cancel function held by the group: it cancels the derived
    context only, and does nothing when that one is already done. *)
Definition groupCancel (c : Context) : Context :=
  match c with
  | Active => GroupDone
  | GroupDone | AllDone => c
  end.

(** ** Collaborators of package [app] *)

Inductive Level : Type := DebugLevel | InfoLevel.

Record Rotation : Type := {
  File : string;
  MaxSizeMb : Z;
  MaxDays : Z;
  MaxBackups : Z;
  Compress : bool;
}.

Inductive LogOption : Type :=
| WithDevelopmentMode
| WithLevel (l : Level)
| WithFileRotation (r : Rotation).

(** Modelled from the spec: [config.Config] is declared outside the
    sources at hand; only the optional lookups with a default that [New]
    performs are kept. *)
Record Config : Type := {
  OptionalString : string -> string -> string;
  OptionalInt : string -> Z -> Z;
  OptionalBool : string -> bool -> bool;
}.

Section Model.
(** Everything runners, closers and the logger can read or change
    outside the application itself. *)
Context {World : Type}.

(** Modelled from the spec: the [Runner] interface is declared outside
    the sources at hand.  A runner is a unit of work that receives the
    shared context and reports success or failure.  [runnerType] is
    what the verb [%T] prints for it.  One call of [Runner_Run w d] is
    one atomic piece of the runner's work in world [w], where [d] tells
    whether the context it holds is done; the second component is
    [None] while the runner has not returned and [Some ret] when [Run]
    returns [ret]. *)
Record Runner : Type := {
  runnerType : string;
  Runner_Run : World -> bool -> World * option (option error);
}.

(** Modelled from the spec: the [Closer] interface is declared outside
    the sources at hand.  A closer has one release operation without
    arguments that returns an error or [nil]. *)
Record Closer : Type := {
  closerType : string;
  Closer_Close : World -> World * option error;
}.

(** Modelled from the spec: [log.Adapter] is declared outside the
    sources at hand.  It can be closed and it can report an error with
    string fields. *)
Record Adapter : Type := {
  Adapter_Close : World -> World * option error;
  Adapter_Error : World -> Context -> error -> list (string * string) -> World;
}.

(** The logger seen through the [Closer] interface. *)
Definition adapterCloser (l : Adapter) : Closer :=
  {| closerType := "*log.Adapter"; Closer_Close := Adapter_Close l |}.

(** The registration part of [Application].  The fields [ctx],
    [cancel] and [group] refer to mutable objects; their state is kept
    in [State] below and in the arguments of [Shutdown]. *)
Record Application : Type := {
  cfg : Config;
  logger : Adapter;
  runners : list Runner;
  closers : list Closer;
}.

(** *** [New] *)
Section New.
Context {ConfigOption : Type}.
Variable config_New : list ConfigOption -> result Config.
Variable log_New : list LogOption -> result Adapter.

Definition New (isDev : bool) (cfgOpts : list ConfigOption)
  : result Application :=
  match config_New cfgOpts with
  | Err err => Err (withMessage err "create config")
  | Ok cfg =>
      let loggerOpts := [WithDevelopmentMode; WithLevel DebugLevel] in
      let loggerOpts :=
        if negb isDev then
          let loggerOpts := [WithLevel InfoLevel] in
          let logFilePath := OptionalString cfg "LOGFILE.PATH" "" in
          if negb (String.eqb logFilePath "") then
            let rotation :=
              {| File := logFilePath;
                 MaxSizeMb := OptionalInt cfg "LOGFILE.MAXSIZEMB" 512;
                 MaxDays := 0;
                 MaxBackups := OptionalInt cfg "LOGFILE.MAXBACKUPS" 4;
                 Compress := OptionalBool cfg "LOGFILE.COMPRESS" true |} in
            loggerOpts ++ [WithFileRotation rotation]
          else loggerOpts
        else loggerOpts in
      match log_New loggerOpts with
      | Err err => Err (withMessage err "create logger")
      | Ok logger =>
          Ok {| cfg := cfg;
                logger := logger;
                runners := [];
                closers := [adapterCloser logger] |}
      end
  end.
End New.

Definition AddRunners (a : Application) (rs : list Runner) : Application :=
  {| cfg := cfg a; logger := logger a;
     runners := runners a ++ rs; closers := closers a |}.

Definition AddClosers (a : Application) (cs : list Closer) : Application :=
  {| cfg := cfg a; logger := logger a;
     runners := runners a; closers := closers a ++ cs |}.

(** *** [Shutdown] *)

(** What [Shutdown] does that can be seen from outside, in order. *)
Inductive Event : Type :=
| EvCancel
| EvClose (i : nat) (closer : Closer) (err : option error)
| EvLogError (err : error) (fields : list (string * string)).

(** The loop over [a.closers] from index [i] on; [cs] is the part of
    the slice still to visit.  It returns the world it leaves and the
    events it caused. *)
Fixpoint closeLoop (lg : Adapter) (ctx : Context) (cs : list Closer)
    (i : nat) (w : World) : World * list Event :=
  match cs with
  | [] => (w, [])
  | closer :: cs' =>
      let (w1, err) := Closer_Close closer w in
      match err with
      | Some e =>
          let fields := [("closer", closerType closer)] in
          let w2 := Adapter_Error lg w1 ctx e fields in
          let (w3, evs) := closeLoop lg ctx cs' (S i) w2 in
          (w3, EvClose i closer err :: EvLogError e fields :: evs)
      | None =>
          let (w3, evs) := closeLoop lg ctx cs' (S i) w1 in
          (w3, EvClose i closer err :: evs)
      end
  end.

(** [Shutdown] has no result in Go: what it returns here is the state
    it leaves (context, world) and the events it caused. *)
Definition Shutdown (a : Application) (ctx : Context) (w : World)
  : Context * World * list Event :=
  let ctx' := cancel ctx in
  let (w', evs) := closeLoop (logger a) ctx' (closers a) 0 w in
  (ctx', w', EvCancel :: evs).

(** *** [Run] *)

(** [errgroup.Group]: the error latch ([errOnce], [err]).  Its wait
    group counts the goroutines of [State] that have not exited. *)
Record Group : Type := {
  errOnce : bool;
  err : option error;
}.

(** A goroutine started by [a.group.Go]: the runner is still running;
    or the function given to [Go] has computed its result [ret] and the
    group has not yet looked at it; or the group has recorded the
    result and released the wait group. *)
Inductive Goroutine : Type :=
| Started
| Finished (ret : option error)
| Exited.

(** Where the caller of [Run] stands: in the [for] loop about to visit
    index [i], blocked in [a.group.Wait], or back with a result. *)
Inductive MainPC : Type :=
| Spawning (i : nat)
| Waiting
| Returned (ret : option error).

(** [st_returns] and [st_arrivals] are history variables: the results
    of [runner.Run] in the order the runners returned, and the results
    handed to the group in the order the group received them.  Both
    carry the index of the runner. *)
Record State : Type := {
  st_ctx : Context;
  st_world : World;
  st_group : Group;
  st_goroutines : list Goroutine;
  st_main : MainPC;
  st_returns : list (nat * option error);
  st_arrivals : list (nat * option error);
}.

(** The state in which [Run] is called on a fresh application. *)
Definition start (w : World) : State :=
  {| st_ctx := newContext;
     st_world := w;
     st_group := {| errOnce := false; err := None |};
     st_goroutines := [];
     st_main := Spawning 0;
     st_returns := [];
     st_arrivals := [] |}.

(** What the scheduler can pick: the next step of the caller of [Run],
    the next step of goroutine [i], or a call of [a.cancel] by someone
    else (as [Shutdown] does from a signal handler). *)
Inductive Action : Type :=
| ActMain
| ActGo (i : nat)
| ActCancel.

(** [errors.WithMessagef(err, "start runner[%T]", runner)]. *)
Definition wrapRunnerErr (runner : Runner) (ret : option error)
  : option error :=
  WithMessage ret ("start runner[" +:+ runnerType runner +:+ "]").

(** [g.errOnce.Do]: the first caller stores its error and cancels the
    group's context; later callers change nothing. *)
Definition errOnceDo (e : error) (g : Group) (c : Context)
  : Group * Context :=
  if errOnce g then (g, c)
  else ({| errOnce := true; err := Some e |}, groupCancel c).

Definition isExited (g : Goroutine) : bool :=
  match g with Exited => true | _ => false end.

(** The caller of [Run]: one more [a.group.Go], or the loop ends and
    [Wait] is entered, or [Wait] finds the wait group at zero, cancels
    the group's context and returns the recorded error.  [Wait] cannot
    move while a goroutine has not exited. *)
Definition stepMain (rs : list Runner) (s : State) : option State :=
  match st_main s with
  | Spawning i =>
      match rs !! i with
      | Some _ =>
          Some {| st_ctx := st_ctx s; st_world := st_world s;
                  st_group := st_group s;
                  st_goroutines := st_goroutines s ++ [Started];
                  st_main := Spawning (S i);
                  st_returns := st_returns s;
                  st_arrivals := st_arrivals s |}
      | None =>
          Some {| st_ctx := st_ctx s; st_world := st_world s;
                  st_group := st_group s;
                  st_goroutines := st_goroutines s;
                  st_main := Waiting;
                  st_returns := st_returns s;
                  st_arrivals := st_arrivals s |}
      end
  | Waiting =>
      if forallb isExited (st_goroutines s) then
        Some {| st_ctx := groupCancel (st_ctx s); st_world := st_world s;
                st_group := st_group s;
                st_goroutines := st_goroutines s;
                st_main := Returned (err (st_group s));
                st_returns := st_returns s;
                st_arrivals := st_arrivals s |}
      else None
  | Returned _ => None
  end.

(** Goroutine [i] while its runner is running: a piece of
    [runner.Run(a.ctx)] by a runner that finds the context done or not
    as [d] says.  When the runner returns, the result is wrapped. *)
Definition runRunner (runner : Runner) (i : nat) (d : bool) (s : State)
  : State :=
  let (w', r) := Runner_Run runner (st_world s) d in
  match r with
  | None =>
      {| st_ctx := st_ctx s; st_world := w';
         st_group := st_group s;
         st_goroutines := st_goroutines s;
         st_main := st_main s;
         st_returns := st_returns s;
         st_arrivals := st_arrivals s |}
  | Some ret =>
      {| st_ctx := st_ctx s; st_world := w';
         st_group := st_group s;
         st_goroutines :=
           <[i := Finished (wrapRunnerErr runner ret)]> (st_goroutines s);
         st_main := st_main s;
         st_returns := st_returns s ++ [(i, ret)];
         st_arrivals := st_arrivals s |}
  end.

(** Goroutine [i] after its function has returned [ret]: the group
    latches a non-nil result and lets the goroutine exit. *)
Definition recordResult (i : nat) (ret : option error) (s : State) : State :=
  let (g, c) :=
    match ret with
    | Some e => errOnceDo e (st_group s) (st_ctx s)
    | None => (st_group s, st_ctx s)
    end in
  {| st_ctx := c; st_world := st_world s;
     st_group := g;
     st_goroutines := <[i := Exited]> (st_goroutines s);
     st_main := st_main s;
     st_returns := st_returns s;
     st_arrivals := st_arrivals s ++ [(i, ret)] |}.

Definition stepGo (rs : list Runner) (i : nat) (s : State) : option State :=
  match st_goroutines s !! i, rs !! i with
  | Some Started, Some runner => Some (runRunner runner i (done (st_ctx s)) s)
  | Some (Finished ret), _ => Some (recordResult i ret s)
  | _, _ => None
  end.

Definition step (rs : list Runner) (act : Action) (s : State)
  : option State :=
  match act with
  | ActMain => stepMain rs s
  | ActGo i => stepGo rs i s
  | ActCancel =>
      Some {| st_ctx := cancel (st_ctx s); st_world := st_world s;
              st_group := st_group s;
              st_goroutines := st_goroutines s;
              st_main := st_main s;
              st_returns := st_returns s;
              st_arrivals := st_arrivals s |}
  end.

(** A schedule is run from left to right; it is refused as a whole when
    one of its actions cannot move. *)
Fixpoint exec (rs : list Runner) (sched : list Action) (s : State)
  : option State :=
  match sched with
  | [] => Some s
  | act :: sched' =>
      match step rs act s with
      | Some s' => exec rs sched' s'
      | None => None
      end
  end.

(** [Run] under a schedule, from the state [s]. *)
Definition Run (a : Application) (sched : list Action) (s : State)
  : option State :=
  exec (runners a) sched s.

(** The states [Run] can be in when called on a fresh application in
    world [w]. *)
Definition reachable (a : Application) (w : World) (s : State) : Prop :=
  exists sched, Run a sched (start w) = Some s.

(** The first non-nil result of a history. *)
Fixpoint firstError (h : list (nat * option error)) : option error :=
  match h with
  | [] => None
  | (_, Some e) :: _ => Some e
  | (_, None) :: h' => firstError h'
  end.

(** The work left to the caller and to the goroutines: it bounds the
    number of steps other than [ActCancel] when runners return at their
    first step. *)
Definition weight (g : Goroutine) : nat :=
  match g with Started => 2 | Finished _ => 1 | Exited => 0 end.

Definition measure (rs : list Runner) (s : State) : nat :=
  match st_main s with
  | Spawning i => 2 + 3 * (length rs - i)
  | Waiting => 1
  | Returned _ => 0
  end + sum_list (weight <$> st_goroutines s).


(** *** Registration and reading the events *)

(** A call of [AddRunners] or of [AddClosers]. *)
Inductive Registration : Type :=
| RegRunners (rs : list Runner)
| RegClosers (cs : list Closer).

Definition register1 (a : Application) (r : Registration) : Application :=
  match r with
  | RegRunners rs => AddRunners a rs
  | RegClosers cs => AddClosers a cs
  end.

(** The composition phase: registrations applied from left to right. *)
Definition register (a : Application) (regs : list Registration)
  : Application :=
  foldl register1 a regs.

(** The closers a composition phase registers, in order. *)
Definition registeredClosers (regs : list Registration) : list Closer :=
  flat_map (fun r => match r with RegClosers cs => cs | RegRunners _ => [] end)
           regs.

(** The release calls of a list of events, in order: index and closer. *)
Fixpoint closeCalls (evs : list Event) : list (nat * Closer) :=
  match evs with
  | [] => []
  | EvClose i closer _ :: evs' => (i, closer) :: closeCalls evs'
  | _ :: evs' => closeCalls evs'
  end.

(** The errors handed to the logger, in order. *)
Fixpoint logged (evs : list Event) : list (error * list (string * string)) :=
  match evs with
  | [] => []
  | EvLogError e fields :: evs' => (e, fields) :: logged evs'
  | _ :: evs' => logged evs'
  end.

(** *** The invariant of [Run] *)

Record Inv (rs : list Runner) (s : State) : Prop := {
  inv_latch : err (st_group s) = firstError (st_arrivals s);
  inv_once : errOnce (st_group s) = bool_decide (is_Some (err (st_group s)));
  inv_cancelled : is_Some (err (st_group s)) -> done (st_ctx s) = true;
  inv_main :
    match st_main s with
    | Spawning i => length (st_goroutines s) = i /\ i <= length rs
    | Waiting => length (st_goroutines s) = length rs
    | Returned ret =>
        length (st_goroutines s) = length rs /\
        Forall (fun g => g = Exited) (st_goroutines s) /\
        ret = err (st_group s) /\
        done (st_ctx s) = true
    end;
  inv_exited :
    forall i, st_goroutines s !! i = Some Exited <-> i ∈ (st_arrivals s).*1;
  inv_arrivals_nodup : NoDup (st_arrivals s).*1;
  inv_returns_nodup : NoDup (st_returns s).*1;
  inv_returned :
    forall i ret, (i, ret) ∈ st_returns s ->
      exists runner, rs !! i = Some runner /\
        (st_goroutines s !! i = Some (Finished (wrapRunnerErr runner ret)) \/
         (i, wrapRunnerErr runner ret) ∈ st_arrivals s);
  inv_returns_real :
    forall i ret, (i, ret) ∈ st_returns s ->
      exists runner w d, rs !! i = Some runner /\
        (Runner_Run runner w d).2 = Some ret;
  inv_arrived :
    forall i ret', (i, ret') ∈ st_arrivals s ->
      exists runner ret, rs !! i = Some runner /\
        (i, ret) ∈ st_returns s /\ ret' = wrapRunnerErr runner ret;
  inv_finished :
    forall i ret', st_goroutines s !! i = Some (Finished ret') ->
      exists runner ret, rs !! i = Some runner /\
        (i, ret) ∈ st_returns s /\ ret' = wrapRunnerErr runner ret;
}.


End Model.

(** ** Sample applications

    The world is a journal to which collaborators append a line. *)

Definition Journal : Type := list string.

Definition sampleConfig : Config :=
  {| OptionalString := fun _ d => d;
     OptionalInt := fun _ d => d;
     OptionalBool := fun _ d => d |}.

(** A logger whose release succeeds, and one whose release fails. *)
Definition quietLogger : Adapter (World := Journal) :=
  {| Adapter_Close := fun w => (w ++ ["logger closed"], None);
     Adapter_Error := fun w _ e _ => w ++ ["error: " +:+ Error e] |}.

Definition failingLogger : Adapter (World := Journal) :=
  {| Adapter_Close := fun w => (w, Some (errorString "sync failed"));
     Adapter_Error := fun w _ e _ => w ++ ["error: " +:+ Error e] |}.

(** A logger that writes down whether the context it is given is done. *)
Definition tellingLogger : Adapter (World := Journal) :=
  {| Adapter_Close := fun w => (w ++ ["logger closed"], None);
     Adapter_Error := fun w ctx e _ =>
       w ++ [(if done ctx then "cancelled, " else "live, ") +:+ Error e] |}.

(** The application [New] returns with [lg] for a logger. *)
Definition freshApp (lg : Adapter (World := Journal)) : Application :=
  {| cfg := sampleConfig; logger := lg; runners := [];
     closers := [adapterCloser lg] |}.

(** A runner that returns nil at once, one that waits for the context to
    be done and then returns nil, and two that fail at once. *)
Definition runnerOk : Runner (World := Journal) :=
  {| runnerType := "*http.Server";
     Runner_Run := fun w _ => (w ++ ["http served"], Some None) |}.

Definition runnerWait : Runner (World := Journal) :=
  {| runnerType := "*grpc.Server";
     Runner_Run := fun w d => if d then (w ++ ["grpc stopped"], Some None)
                              else (w, None) |}.

Definition runnerBoom : Runner (World := Journal) :=
  {| runnerType := "*kafka.Consumer";
     Runner_Run := fun w _ => (w, Some (Some (errorString "boom"))) |}.

Definition runnerCrash : Runner (World := Journal) :=
  {| runnerType := "*cron.Scheduler";
     Runner_Run := fun w _ => (w, Some (Some (errorString "crash"))) |}.

Definition closerX : Closer (World := Journal) :=
  {| closerType := "*sql.DB";
     Closer_Close := fun w => (w ++ ["db closed"], None) |}.

Definition closerY : Closer (World := Journal) :=
  {| closerType := "*os.File";
     Closer_Close := fun w => (w, Some (errorString "disk full")) |}.

Definition closerZ : Closer (World := Journal) :=
  {| closerType := "*redis.Client";
     Closer_Close := fun w => (w ++ ["redis closed"], None) |}.

(** Scenario 2 of the specification: [runnerWait] and [runnerBoom]. *)
Definition appWaitBoom : Application :=
  AddRunners (freshApp quietLogger) [runnerWait; runnerBoom].

(** Two failing runners. *)
Definition appBoomCrash : Application :=
  AddRunners (freshApp quietLogger) [runnerBoom; runnerCrash].

(** Both goroutines are started, then goroutine [1] runs to its end
    before goroutine [0]. *)
Definition schedSecondFirst : list Action :=
  [ActMain; ActMain; ActMain; ActGo 1; ActGo 1; ActGo 0; ActGo 0; ActMain].

(** Both goroutines are started, then goroutine [0] runs to its end
    before goroutine [1]. *)
Definition schedFirstFirst : list Action :=
  [ActMain; ActMain; ActMain; ActGo 0; ActGo 0; ActGo 1; ActGo 1; ActMain].

(** Runner [0] returns first, but goroutine [1] reaches the group first. *)
Definition schedOvertake : list Action :=
  [ActMain; ActMain; ActMain; ActGo 0; ActGo 1; ActGo 1; ActGo 0; ActMain].


Definition appXYZ : Application :=
  AddClosers (freshApp quietLogger) [closerX; closerY; closerZ].

Definition appTelling : Application :=
  AddClosers (freshApp tellingLogger) [closerX; closerY; closerZ].

(** The state a schedule leaves when [Run] is called in an empty journal
    (the initial state when the schedule is refused). *)
Definition runState (a : Application (World := Journal))
    (sched : list Action) : State :=
  default (start []) (Run a sched (start [])).

(** Runner [1] has failed and the group has recorded it. *)
Definition schedBoomRecorded : list Action :=
  [ActMain; ActMain; ActMain; ActGo 1; ActGo 1].

(** Runner [1] has failed; its goroutine has not reached the group. *)
Definition schedBoomReturned : list Action :=
  [ActMain; ActMain; ActMain; ActGo 1].

Definition stOvertake : State :=
  Eval vm_compute in runState appBoomCrash schedOvertake.
Definition stFirstFirst : State :=
  Eval vm_compute in runState appBoomCrash schedFirstFirst.
Definition stWaitBoom : State :=
  Eval vm_compute in runState appWaitBoom schedSecondFirst.
Definition stBoomRecorded : State :=
  Eval vm_compute in runState appWaitBoom schedBoomRecorded.
Definition stBoomReturned : State :=
  Eval vm_compute in runState appWaitBoom schedBoomReturned.

(** ** The rest of package [bootstrap] *)

(** [strconv.Itoa]: the decimal digits of [n], after a minus sign when
    [n] is negative. *)
Definition Itoa (n : Z) : string := pretty n.

(** [errors.Errorf] with a format that holds no verb. *)
Definition errors_Errorf (msg : string) : error := errorString msg.

(** Modelled from the spec: the types of the two gRPC addresses of
    [LocalConfig] are declared outside the sources at hand; [boostrap.go]
    reads an [IP] string and a [Port] int of each. *)
Record GrpcAddr : Type := {
  GrpcIP : string;
  GrpcPort : Z;
}.

(** Modelled from the spec: [LocalConfig] is declared outside the sources
    at hand; the fields are those [boostrap.go] reads. *)
Record LocalConfig : Type := {
  ConfigServiceAddress : ConfigServiceAddr;
  DefaultRemoteConfigPath : string;
  GrpcOuterAddress : GrpcAddr;
  GrpcInnerAddress : GrpcAddr;
  ModuleName : string;
  MigrationsDirPath : string;
  RemoteConfigOverride : string;
}.

(** [cluster.AddressConfiguration], as [bootstrap] fills it. *)
Record AddressConfiguration : Type := {
  AddrIP : string;
  AddrPort : string;
}.

(** What [net.Dial] returns, as far as [resolveHost] looks at it: the
    text of the IPv4 form of the local address of the connection. *)
Record Conn : Type := {
  LocalAddrIPv4 : string;
}.

Section BootstrapModel.
Context {World Endpoint RemoteConfigT Schema Client RemoteCfg : Type}.

(** [cluster.ModuleInfo] and [cluster.ConfigData], as [bootstrap] fills
    them. *)
Record ModuleInfo : Type := {
  mi_ModuleName : string;
  mi_ModuleVersion : string;
  mi_GrpcOuterAddress : AddressConfiguration;
  mi_Endpoints : list Endpoint;
}.

Record ConfigData : Type := {
  cd_Version : string;
  cd_Schema : string;
  cd_Config : string;
}.

(** The operations of other packages and of the operating system that
    [boostrap.go] calls.  Within one call of [bootstrap] each of them
    answers the same question the same way. *)
Record Collab : Type := {
  Config_Read : Config -> result LocalConfig;
  os_Getenv : string -> string;
  os_Executable : result string;
  os_ReadFile : string -> result string;
  path_Dir : string -> string;
  path_Join : string -> string -> string;
  net_Dial : string -> string -> result Conn;
  GenerateConfigSchema : RemoteConfigT -> Schema;
  json_Marshal : Schema -> result string;
  json_Unmarshal : string -> result string;
  cluster_NewClient :
    ModuleInfo -> ConfigData -> list string -> Adapter (World := World) -> Client;
  rc_New : string -> RemoteCfg;
}.

Record Bootstrap : Type := {
  App : Application (World := World);
  ClusterCli : Client;
  RemoteConfig : RemoteCfg;
  BindingAddress : string;
  MigrationsDir : string;
  bs_ModuleName : string;
}.

Definition relativePathFromBin (c : Collab) (part : string) : result string :=
  match os_Executable c with
  | Err err => Err (withMessage err "get executable path")
  | Ok ex => Ok (path_Join c (path_Dir c ex) part)
  end.

Definition defaultRemoteConfigPath (c : Collab) (isDev : bool)
    (cfg : LocalConfig) : result string :=
  if negb (String.eqb (DefaultRemoteConfigPath cfg) "")
  then Ok (DefaultRemoteConfigPath cfg)
  else if isDev then Ok "conf/default_remote_config.json"
  else relativePathFromBin c "default_remote_config.json".

Definition configFilePath (c : Collab) (isDev : bool) : result string :=
  let cfgPath := os_Getenv c "APP_CONFIG_PATH" in
  if negb (String.eqb cfgPath "") then Ok cfgPath
  else if isDev then Ok "./conf/config_dev.yml"
  else relativePathFromBin c "config.yml".

Definition migrationsDirPath (c : Collab) (isDev : bool)
    (cfg : LocalConfig) : result string :=
  if negb (String.eqb (MigrationsDirPath cfg) "")
  then Ok (MigrationsDirPath cfg)
  else if isDev then Ok "./migrations"
  else relativePathFromBin c "migrations".

(** The error of [net.Dial] is returned as it is. *)
Definition resolveHost (c : Collab) (target : string) : result string :=
  match net_Dial c "udp" target with
  | Err err => Err err
  | Ok conn => Ok (LocalAddrIPv4 conn)
  end.

Definition readDefaultRemoteConfig (c : Collab) (isDev : bool)
    (cfg : LocalConfig) : result string :=
  match defaultRemoteConfigPath c isDev cfg with
  | Err err => Err (withMessage err "resolve path")
  | Ok path =>
      match os_ReadFile c path with
      | Err err => Err (withMessage err "read file")
      | Ok data =>
          match json_Unmarshal c data with
          | Err err => Err (withMessage err "unmarshal json")
          | Ok remoteConfig => Ok remoteConfig
          end
      end
  end.

(** [bootstrap].  [None] is a run-time panic: the only place that could
    raise one is the index expression [configServiceHosts[0]]. *)
Definition bootstrap (c : Collab) (isDev : bool)
    (app : Application (World := World)) (moduleVersion : string)
    (remoteConfig : RemoteConfigT) (endpoints : list Endpoint)
  : option (result Bootstrap) :=
  match Config_Read c (cfg app) with
  | Err err => Some (Err (withMessage err "read local config"))
  | Ok localConfig =>
      if negb (GrpcPort (GrpcInnerAddress localConfig)
               =? GrpcPort (GrpcOuterAddress localConfig))%Z
      then Some (Err (errors_Errorf
        "grpcInnerAddress.port is not equal grpcOuterAddress.port. potential mistake"))
      else
        match parseConfigServiceHosts (ConfigServiceAddress localConfig) with
        | None => None
        | Some (Err err) =>
            Some (Err (withMessage err "parse config service hosts"))
        | Some (Ok configServiceHosts) =>
            let broadcastHost := GrpcIP (GrpcOuterAddress localConfig) in
            let resolved :=
              if String.eqb broadcastHost "" then
                match configServiceHosts !! 0 with
                | None => None
                | Some target => Some (resolveHost c target)
                end
              else Some (Ok broadcastHost) in
            match resolved with
            | None => None
            | Some (Err err) => Some (Err (withMessage err "resolve local host"))
            | Some (Ok broadcastHost) =>
                let moduleInfo :=
                  {| mi_ModuleName := ModuleName localConfig;
                     mi_ModuleVersion := moduleVersion;
                     mi_GrpcOuterAddress :=
                       {| AddrIP := broadcastHost;
                          AddrPort :=
                            Itoa (GrpcPort (GrpcOuterAddress localConfig)) |};
                     mi_Endpoints := endpoints |} in
                let schema := GenerateConfigSchema c remoteConfig in
                match json_Marshal c schema with
                | Err err => Some (Err (withMessage err "marshal schema"))
                | Ok schemaData =>
                    match readDefaultRemoteConfig c isDev localConfig with
                    | Err err =>
                        Some (Err (withMessage err "read default remote config"))
                    | Ok defaultConfig =>
                        let configData :=
                          {| cd_Version := moduleVersion;
                             cd_Schema := schemaData;
                             cd_Config := defaultConfig |} in
                        let clusterCli :=
                          cluster_NewClient c moduleInfo configData
                            configServiceHosts (logger app) in
                        let rc := rc_New c (RemoteConfigOverride localConfig) in
                        let bindingAddress :=
                          JoinHostPort
                            (GrpcIP (GrpcInnerAddress localConfig))
                            (Itoa (GrpcPort (GrpcInnerAddress localConfig))) in
                        match migrationsDirPath c isDev localConfig with
                        | Err err =>
                            Some (Err (withMessage err
                                         "resolve migrations dir path"))
                        | Ok migrationsDir =>
                            Some (Ok {| App := app;
                                        ClusterCli := clusterCli;
                                        RemoteConfig := rc;
                                        BindingAddress := bindingAddress;
                                        bs_ModuleName := ModuleName localConfig;
                                        MigrationsDir := migrationsDir |})
                        end
                    end
                end
            end
        end
  end.

(** The same collaborators with another [net.Dial], and with another
    answer of [os.Executable]. *)
Definition withDial (c : Collab)
    (dial : string -> string -> result Conn) : Collab :=
  {| Config_Read := Config_Read c; os_Getenv := os_Getenv c;
     os_Executable := os_Executable c; os_ReadFile := os_ReadFile c;
     path_Dir := path_Dir c; path_Join := path_Join c;
     net_Dial := dial;
     GenerateConfigSchema := GenerateConfigSchema c;
     json_Marshal := json_Marshal c; json_Unmarshal := json_Unmarshal c;
     cluster_NewClient := cluster_NewClient c; rc_New := rc_New c |}.

Definition withExecutable (c : Collab) (exe : result string) : Collab :=
  {| Config_Read := Config_Read c; os_Getenv := os_Getenv c;
     os_Executable := exe; os_ReadFile := os_ReadFile c;
     path_Dir := path_Dir c; path_Join := path_Join c;
     net_Dial := net_Dial c;
     GenerateConfigSchema := GenerateConfigSchema c;
     json_Marshal := json_Marshal c; json_Unmarshal := json_Unmarshal c;
     cluster_NewClient := cluster_NewClient c; rc_New := rc_New c |}.

End BootstrapModel.

(** ** More readings of registrations, events and runners *)

Section Readings.
Context {World : Type}.


(** The runners a composition phase registers, in order. *)
Definition registeredRunners (regs : list (Registration (World := World)))
  : list Runner :=
  flat_map (fun r => match r with RegRunners rs => rs | RegClosers _ => [] end)
           regs.

(** The release calls of a list of events that returned an error, in
    order, each as the logger is to be told of it. *)
Fixpoint closeFailures (evs : list (Event (World := World)))
  : list (error * list (string * string)) :=
  match evs with
  | [] => []
  | EvClose _ closer (Some e) :: evs' =>
      (e, [("closer", closerType closer)]) :: closeFailures evs'
  | _ :: evs' => closeFailures evs'
  end.

(** What one turn of the loop of [Shutdown] does to the world: the
    release call and, when it returned an error, the call of the logger
    with the context [ctx]. *)
Definition releaseTurn (lg : Adapter (World := World)) (ctx : Context)
    (closer : Closer) (w : World) : World :=
  match Closer_Close closer w with
  | (w1, Some e) => Adapter_Error lg w1 ctx e [("closer", closerType closer)]
  | (w1, None) => w1
  end.

(** The world in which the loop over [cs], started in [w], makes the
    release call of index [i]: the world the turns before it have left. *)
Definition worldAt (lg : Adapter (World := World)) (ctx : Context)
    (cs : list Closer) (i : nat) (w : World) : World :=
  foldl (fun w' closer => releaseTurn lg ctx closer w') w (take i cs).

(** The release calls of a list of events with what they returned, in
    order. *)
Fixpoint closeResults (evs : list (Event (World := World)))
  : list (nat * Closer * option error) :=
  match evs with
  | [] => []
  | EvClose i closer r :: evs' => (i, closer, r) :: closeResults evs'
  | _ :: evs' => closeResults evs'
  end.

(** What the logger is told of a release call that returned [r]. *)
Definition failureEntry (x : Closer (World := World) * option error)
  : option (error * list (string * string)) :=
  match x.2 with
  | Some e => Some (e, [("closer", closerType x.1)])
  | None => None
  end.

(** Runners that return at the first step at which they find the
    context done. *)
Definition cooperative (rs : list (Runner (World := World))) : Prop :=
  forall runner w, runner ∈ rs -> is_Some (Runner_Run runner w true).2.

End Readings.

(** ** Sample collaborators of [bootstrap] *)

Definition sampleLocal : LocalConfig :=
  {| ConfigServiceAddress := {| IP := "10.0.0.1;10.0.0.2"; Port := "9001;9002" |};
     DefaultRemoteConfigPath := "";
     GrpcOuterAddress := {| GrpcIP := ""; GrpcPort := 9999 |};
     GrpcInnerAddress := {| GrpcIP := "0.0.0.0"; GrpcPort := 9999 |};
     ModuleName := "orders";
     MigrationsDirPath := "";
     RemoteConfigOverride := "" |}.

(** The arguments a cluster client was built from stand for the client. *)
Definition sampleCollab (lc : LocalConfig) (exe : result string)
  : Collab (World := Journal) (Endpoint := string) (RemoteConfigT := string)
           (Schema := string)
           (Client := ModuleInfo (Endpoint := string) * list string)
           (RemoteCfg := string) :=
  {| Config_Read := fun _ => Ok lc;
     os_Getenv := fun _ => "";
     os_Executable := exe;
     os_ReadFile := fun _ => Ok "{}";
     path_Dir := fun ex => "/opt/app";
     path_Join := fun d part => d +:+ "/" +:+ part;
     net_Dial := fun _ _ => Ok {| LocalAddrIPv4 := "192.168.0.7" |};
     GenerateConfigSchema := fun r => r;
     json_Marshal := fun s => Ok s;
     json_Unmarshal := fun d => Ok d;
     cluster_NewClient := fun mi _ hosts _ => (mi, hosts);
     rc_New := fun o => o |}.

(** The same local configuration with an outer address and explicit
    paths, and one whose two ports differ. *)
Definition sampleLocalExplicit : LocalConfig :=
  {| ConfigServiceAddress := {| IP := "10.0.0.1"; Port := "9001" |};
     DefaultRemoteConfigPath := "/etc/app/default.json";
     GrpcOuterAddress := {| GrpcIP := "203.0.113.5"; GrpcPort := 9999 |};
     GrpcInnerAddress := {| GrpcIP := "0.0.0.0"; GrpcPort := 9999 |};
     ModuleName := "orders";
     MigrationsDirPath := "/etc/app/migrations";
     RemoteConfigOverride := "" |}.

Definition sampleLocalMismatch : LocalConfig :=
  {| ConfigServiceAddress := {| IP := "10.0.0.1"; Port := "9001" |};
     DefaultRemoteConfigPath := "";
     GrpcOuterAddress := {| GrpcIP := ""; GrpcPort := 9999 |};
     GrpcInnerAddress := {| GrpcIP := "0.0.0.0"; GrpcPort := 8888 |};
     ModuleName := "orders";
     MigrationsDirPath := "";
     RemoteConfigOverride := "" |}.

(** A runner that never returns, and an application that holds it. *)
Definition runnerStuck : Runner (World := Journal) :=
  {| runnerType := "*queue.Worker";
     Runner_Run := fun w _ => (w, None) |}.

Definition appStuck : Application :=
  AddRunners (freshApp quietLogger) [runnerOk; runnerStuck].

(** Both goroutines of [appWaitBoom] are started and no runner has moved;
    and the caller of [Run] on [appStuck] waits while the first runner is
    through. *)
Definition schedSpawned : list Action := [ActMain; ActMain; ActMain].

Definition stSpawned : State :=
  Eval vm_compute in runState appWaitBoom schedSpawned.

Definition schedStuck : list Action :=
  [ActMain; ActMain; ActMain; ActGo 0; ActGo 0; ActGo 1].

Definition stStuck : State :=
  Eval vm_compute in runState appStuck schedStuck.

Example parse_two :
  parseConfigServiceHosts {| IP := "10.0.0.1;cfg.local"; Port := "9001;9002" |}
  = Some (Ok ["10.0.0.1:9001"; "cfg.local:9002"]).
Proof. reflexivity. Qed.

Example parse_mismatch :
  parseConfigServiceHosts {| IP := "10.0.0.1;cfg.local"; Port := "9001" |}
  = Some (Err (errorString "len(hosts) != len(ports)")).
Proof. reflexivity. Qed.

Example parse_ipv6 :
  parseConfigServiceHosts {| IP := "::1"; Port := "9000" |}
  = Some (Ok ["[::1]:9000"]).
Proof. reflexivity. Qed.

Example run_wait_boom :
  st_main <$> Run appWaitBoom schedSecondFirst (start [])
  = Some (Returned (Some (withMessage (errorString "boom")
                                      "start runner[*kafka.Consumer]"))).
Proof. reflexivity. Qed.

Example run_wait_boom_message :
  Error (withMessage (errorString "boom") "start runner[*kafka.Consumer]")
  = "start runner[*kafka.Consumer]: boom".
Proof. reflexivity. Qed.

(** The runner that waits cannot return before the context is done: a
    schedule that lets it go first is stuck in [Wait]. *)
Example run_wait_blocks :
  Run appWaitBoom [ActMain; ActMain; ActMain; ActGo 0; ActMain] (start [])
  = None.
Proof. reflexivity. Qed.

Example run_first_first :
  st_main <$> Run appBoomCrash schedFirstFirst (start [])
  = Some (Returned (Some (withMessage (errorString "boom")
                                      "start runner[*kafka.Consumer]"))).
Proof. reflexivity. Qed.

Example run_second_first :
  st_main <$> Run appBoomCrash schedSecondFirst (start [])
  = Some (Returned (Some (withMessage (errorString "crash")
                                      "start runner[*cron.Scheduler]"))).
Proof. reflexivity. Qed.

Example run_overtake :
  st_main <$> Run appBoomCrash schedOvertake (start [])
  = Some (Returned (Some (withMessage (errorString "crash")
                                      "start runner[*cron.Scheduler]"))).
Proof. reflexivity. Qed.

Example shutdown_xyz :
  Shutdown appXYZ newContext []
  = (AllDone,
     ["logger closed"; "db closed"; "error: disk full"; "redis closed"],
     [EvCancel;
      EvClose 0 (adapterCloser quietLogger) None;
      EvClose 1 closerX None;
      EvClose 2 closerY (Some (errorString "disk full"));
      EvLogError (errorString "disk full") [("closer", "*os.File")];
      EvClose 3 closerZ None]).
Proof. reflexivity. Qed.

(** ** Properties of [parseConfigServiceHosts] *)

Lemma genSplit_length (sep : ascii) (s cur : string) :
  length (genSplit sep s cur) = S (Count s sep).
Proof.
  revert cur. induction s as [|c s IH]; intros cur; simpl; [done|].
  destruct (Ascii.eqb c sep); simpl; by rewrite IH.
Qed.

Lemma Split_length (s : string) (sep : ascii) :
  length (Split s sep) = S (Count s sep).
Proof. apply genSplit_length. Qed.

Lemma IndexByteString_ge_m1 (s : string) (c : ascii) :
  (-1 <= IndexByteString s c)%Z.
Proof.
  induction s as [|b s IH]; simpl; [lia|].
  destruct (Ascii.eqb b c); [lia|].
  destruct (Z.ltb_spec (IndexByteString s c) 0); lia.
Qed.

Lemma IndexByteString_Count (s : string) (c : ascii) :
  (0 <=? IndexByteString s c)%Z = negb (Count s c =? 0).
Proof.
  induction s as [|b s IH]; simpl; [done|].
  destruct (Ascii.eqb b c); simpl; [done|].
  rewrite <- IH. pose proof (IndexByteString_ge_m1 s c).
  destruct (Z.ltb_spec (IndexByteString s c) 0);
    destruct (Z.leb_spec 0 (IndexByteString s c)); simpl; try lia;
    symmetry; apply Z.leb_le || apply Z.leb_gt; lia.
Qed.

Lemma JoinHostPort_cases (host port : string) :
  JoinHostPort host port =
  if Count host ":" =? 0 then host +:+ ":" +:+ port
  else "[" +:+ host +:+ "]:" +:+ port.
Proof.
  unfold JoinHostPort. rewrite IndexByteString_Count.
  by destruct (Count host ":" =? 0).
Qed.

Lemma hostsLoop_zip (hosts ports : list string) (i : nat) (arr : list string) :
  length hosts + i <= length ports ->
  hostsLoop hosts ports i arr
  = Some (arr ++ zip_with JoinHostPort hosts (drop i ports)).
Proof.
  revert i arr. induction hosts as [|host hosts IH]; intros i arr Hlen; simpl.
  - by rewrite app_nil_r.
  - simpl in Hlen.
    destruct (lookup_lt_is_Some_2 ports i) as [port Hport]; [lia|].
    rewrite Hport, IH by lia.
    rewrite (drop_S _ _ _ Hport). simpl. by rewrite <- app_assoc.
Qed.

(** C10 (as amended).  [parseConfigServiceHosts] never panics.  It
    returns an error exactly when the IP field and the Port field do not
    have the same number of segments between semicolons (one more than
    the number of semicolons).  Otherwise it returns one address for each
    segment, in order: the i-th address is what [net.JoinHostPort] makes
    of the i-th host and the i-th port, that is host, colon, port when the
    host holds no colon, and the host between square brackets, colon,
    port when it does. *)
Theorem parseConfigServiceHosts_spec (cfg : ConfigServiceAddr) :
  let hosts := Split (IP cfg) ";" in
  let ports := Split (Port cfg) ";" in
  length hosts = S (Count (IP cfg) ";") /\
  length ports = S (Count (Port cfg) ";") /\
  ((exists e, parseConfigServiceHosts cfg = Some (Err e))
   <-> length hosts <> length ports) /\
  (length hosts = length ports ->
   exists arr,
     parseConfigServiceHosts cfg = Some (Ok arr) /\
     length arr = length hosts /\
     forall i host port,
       hosts !! i = Some host -> ports !! i = Some port ->
       arr !! i = Some (if Count host ":" =? 0
                        then host +:+ ":" +:+ port
                        else "[" +:+ host +:+ "]:" +:+ port)).
Proof.
  intros hosts ports.
  split; [apply Split_length|]. split; [apply Split_length|].
  unfold parseConfigServiceHosts. fold hosts ports.
  destruct (Nat.eqb_spec (length hosts) (length ports)) as [Heq|Hne]; simpl.
  - rewrite hostsLoop_zip by lia. simpl. split.
    + split; [intros [e He]; discriminate | done].
    + intros _. exists (zip_with JoinHostPort hosts ports).
      split; [done|]. split.
      * rewrite length_zip_with. lia.
      * intros i host port Hh Hp.
        rewrite lookup_zip_with, Hh. simpl. rewrite Hp. simpl.
        by rewrite JoinHostPort_cases.
  - split; [|done]. split; [done|]. intros _. eauto.
Qed.

Lemma parseConfigServiceHosts_spec_witness :
  exists arr,
    parseConfigServiceHosts {| IP := "10.0.0.1;::1"; Port := "9001;9002" |}
    = Some (Ok arr) /\
    arr !! 0 = Some "10.0.0.1:9001" /\ arr !! 1 = Some "[::1]:9002".
Proof.
  destruct (parseConfigServiceHosts_spec
              {| IP := "10.0.0.1;::1"; Port := "9001;9002" |})
    as (_ & _ & _ & H).
  destruct (H eq_refl) as (arr & Harr & _ & Hi).
  exists arr. split; [exact Harr|]. split.
  - exact (Hi 0 "10.0.0.1" "9001" eq_refl eq_refl).
  - exact (Hi 1 "::1" "9002" eq_refl eq_refl).
Defined.

(** C10 as stated fails: a host that holds a colon is not joined as host,
    colon, port. *)
Lemma parseConfigServiceHosts_not_host_colon_port :
  ~ (forall cfg arr i host port,
       parseConfigServiceHosts cfg = Some (Ok arr) ->
       Split (IP cfg) ";" !! i = Some host ->
       Split (Port cfg) ";" !! i = Some port ->
       arr !! i = Some (host +:+ ":" +:+ port)).
Proof.
  intros H.
  specialize (H {| IP := "::1"; Port := "9000" |} ["[::1]:9000"] 0
                "::1" "9000" eq_refl eq_refl eq_refl).
  discriminate H.
Qed.

(** ** Properties of [Shutdown] *)

Section ShutdownFacts.
Context {World : Type}.
Implicit Types (a : Application (World := World)) (lg : Adapter (World := World)).
Implicit Types (cs : list (Closer (World := World))) (w : World) (ctx : Context).
Implicit Types (evs : list (Event (World := World))).

(** One turn of the loop, by the result of the release call. *)
Lemma closeLoop_cons lg ctx closer cs i w :
  closeLoop lg ctx (closer :: cs) i w =
  match (Closer_Close closer w).2 with
  | Some e =>
      let fields := [("closer", closerType closer)] in
      let r := closeLoop lg ctx cs (S i)
                 (Adapter_Error lg (Closer_Close closer w).1 ctx e fields) in
      (r.1, EvClose i closer (Some e) :: EvLogError e fields :: r.2)
  | None =>
      let r := closeLoop lg ctx cs (S i) (Closer_Close closer w).1 in
      (r.1, EvClose i closer None :: r.2)
  end.
Proof.
  simpl. destruct (Closer_Close closer w) as [w1 [e|]]; simpl;
    by destruct (closeLoop _ _ _ _ _).
Qed.

Lemma closeLoop_closeCalls lg ctx cs i w :
  closeCalls (closeLoop lg ctx cs i w).2 = imap (fun j c => (i + j, c)) cs.
Proof.
  revert i w. induction cs as [|closer cs IH]; intros i w; [done|].
  rewrite closeLoop_cons.
  destruct (Closer_Close closer w).2; simpl; rewrite IH, Nat.add_0_r;
    f_equal; apply imap_ext; intros j c _; simpl; f_equal; lia.
Qed.

Lemma closeLoop_no_cancel lg ctx cs i w :
  EvCancel ∉ (closeLoop lg ctx cs i w).2.
Proof.
  revert i w. induction cs as [|closer cs IH]; intros i w.
  - simpl. apply not_elem_of_nil.
  - rewrite closeLoop_cons.
    destruct (Closer_Close closer w).2; simpl;
      rewrite ?not_elem_of_cons; repeat split; try done; apply IH.
Qed.

(** A failed release is followed at once by the call of the logger, and
    the rest of the slice is still visited. *)
Lemma closeLoop_failure lg ctx cs k w i closer e :
  EvClose i closer (Some e) ∈ (closeLoop lg ctx cs k w).2 ->
  exists j pre post,
    i = k + j /\ cs !! j = Some closer /\
    (closeLoop lg ctx cs k w).2
    = pre ++ EvClose i closer (Some e)
          :: EvLogError e [("closer", closerType closer)] :: post /\
    closeCalls post = imap (fun m c => (S i + m, c)) (drop (S j) cs).
Proof.
  revert k w. induction cs as [|c cs IH]; intros k w.
  - simpl. intros H. by apply elem_of_nil in H.
  - rewrite closeLoop_cons.
    destruct (Closer_Close c w).2 as [e0|] eqn:Hres; simpl.
    + rewrite !elem_of_cons. intros [Heq|[Heq|Hin]]; [|done|].
      * injection Heq as -> -> ->.
        exists 0, [], (closeLoop lg ctx cs (S k)
                         (Adapter_Error lg (Closer_Close c w).1 ctx e0
                            [("closer", closerType c)])).2.
        rewrite Nat.add_0_r. split; [done|]. split; [done|]. split; [done|].
        rewrite closeLoop_closeCalls. by rewrite drop_0.
      * destruct (IH _ _ Hin) as (j & pre & post & -> & Hj & Hevs & Hpost).
        exists (S j), (EvClose k c (Some e0)
                        :: EvLogError e0 [("closer", closerType c)] :: pre), post.
        split; [lia|]. split; [done|]. split.
        -- by rewrite Hevs.
        -- by rewrite Hpost.
    + rewrite !elem_of_cons. intros [Heq|Hin]; [done|].
      destruct (IH _ _ Hin) as (j & pre & post & -> & Hj & Hevs & Hpost).
      exists (S j), (EvClose k c None :: pre), post.
      split; [lia|]. split; [done|]. split.
      -- by rewrite Hevs.
      -- by rewrite Hpost.
Qed.

Lemma Shutdown_unfold a ctx w :
  Shutdown a ctx w
  = (cancel ctx,
     (closeLoop (logger a) (cancel ctx) (closers a) 0 w).1,
     EvCancel :: (closeLoop (logger a) (cancel ctx) (closers a) 0 w).2).
Proof. unfold Shutdown. by destruct (closeLoop _ _ _ _ _). Qed.

Lemma cancel_done ctx : done (cancel ctx) = true.
Proof. by destruct ctx. Qed.

Lemma cancel_idempotent ctx : cancel (cancel ctx) = cancel ctx.
Proof. by destruct ctx. Qed.

Lemma cancel_keeps_done ctx : done ctx = true -> done (cancel ctx) = done ctx.
Proof. by destruct ctx. Qed.

Lemma groupCancel_done ctx : done (groupCancel ctx) = true.
Proof. by destruct ctx. Qed.

(** *** The worlds the release calls are made in *)

Lemma worldAt_0 lg ctx cs w : worldAt lg ctx cs 0 w = w.
Proof. done. Qed.

Lemma worldAt_cons lg ctx closer cs i w :
  worldAt lg ctx (closer :: cs) (S i) w
  = worldAt lg ctx cs i (releaseTurn lg ctx closer w).
Proof. done. Qed.

Lemma worldAt_S lg ctx cs i closer w :
  cs !! i = Some closer ->
  worldAt lg ctx cs (S i) w = releaseTurn lg ctx closer (worldAt lg ctx cs i w).
Proof.
  intros Hi. unfold worldAt. rewrite (take_S_r _ _ _ Hi). by rewrite foldl_app.
Qed.

Lemma worldAt_all lg ctx cs w :
  worldAt lg ctx cs (length cs) w
  = foldl (fun w' closer => releaseTurn lg ctx closer w') w cs.
Proof. unfold worldAt. by rewrite firstn_all. Qed.

Lemma worldAt_drop lg ctx cs i w :
  foldl (fun w' closer => releaseTurn lg ctx closer w')
        (worldAt lg ctx cs i w) (drop i cs)
  = worldAt lg ctx cs (length cs) w.
Proof.
  rewrite worldAt_all. unfold worldAt.
  by rewrite <- foldl_app, take_drop.
Qed.

(** One turn, by the result of the release call. *)
Lemma releaseTurn_cases lg ctx closer w :
  releaseTurn lg ctx closer w
  = match (Closer_Close closer w).2 with
    | Some e =>
        Adapter_Error lg (Closer_Close closer w).1 ctx e
          [("closer", closerType closer)]
    | None => (Closer_Close closer w).1
    end.
Proof. unfold releaseTurn. by destruct (Closer_Close closer w) as [w1 [e|]]. Qed.

(** The loop leaves the world its turns leave, one after the other. *)
Lemma closeLoop_world lg ctx cs i w :
  (closeLoop lg ctx cs i w).1
  = foldl (fun w' closer => releaseTurn lg ctx closer w') w cs.
Proof.
  revert i w. induction cs as [|closer cs IH]; intros i w; [done|].
  rewrite closeLoop_cons. simpl. rewrite releaseTurn_cases.
  destruct (Closer_Close closer w).2; simpl; apply IH.
Qed.

(** Each release call is made in the world the turns before it left, and
    the event records what it returned there. *)
Lemma closeLoop_results lg ctx cs i w :
  closeResults (closeLoop lg ctx cs i w).2
  = imap (fun j closer =>
            (i + j, closer,
             (Closer_Close closer (worldAt lg ctx cs j w)).2)) cs.
Proof.
  revert i w. induction cs as [|closer cs IH]; intros i w; [done|].
  rewrite closeLoop_cons.
  pose proof (releaseTurn_cases lg ctx closer w) as Hturn.
  destruct (Closer_Close closer w).2 as [e|] eqn:Hres; simpl;
    rewrite IH, Nat.add_0_r, worldAt_0, Hres; f_equal;
    apply imap_ext; intros j c _; simpl;
    rewrite worldAt_cons, Hturn; do 2 f_equal; lia.
Qed.

Lemma closeResults_elem (evs : list (Event (World := World))) i closer r :
  (i, closer, r) ∈ closeResults evs <-> EvClose i closer r ∈ evs.
Proof.
  induction evs as [|[|j c r'|e f] evs IH]; simpl.
  - split; intros H; by apply elem_of_nil in H.
  - rewrite elem_of_cons, IH. split; [auto|]. intros [?|?]; [done|auto].
  - rewrite !elem_of_cons, IH. split.
    + intros [[= -> -> ->]|?]; auto.
    + intros [[= -> -> ->]|?]; auto.
  - rewrite elem_of_cons, IH. split; [auto|]. intros [?|?]; [done|auto].
Qed.

(** What the loop hands to the logger: the failed release calls. *)
Lemma closeLoop_logged_results lg ctx cs i w :
  logged (closeLoop lg ctx cs i w).2
  = omap failureEntry
      (imap (fun j closer =>
               (closer, (Closer_Close closer (worldAt lg ctx cs j w)).2)) cs).
Proof.
  revert i w. induction cs as [|closer cs IH]; intros i w; [done|].
  rewrite closeLoop_cons.
  pose proof (releaseTurn_cases lg ctx closer w) as Hturn.
  assert (forall w',
            releaseTurn lg ctx closer w = w' ->
            imap (fun j c => (c, (Closer_Close c (worldAt lg ctx cs j w')).2)) cs
            = imap ((fun j c =>
                       (c, (Closer_Close c
                              (worldAt lg ctx (closer :: cs) j w)).2)) ∘ S) cs)
    as Htail.
  { intros w' <-. apply imap_ext. intros j c _. simpl. by rewrite worldAt_cons. }
  destruct (Closer_Close closer w).2 as [e|] eqn:Hres; simpl;
    rewrite IH, worldAt_0, (Htail _ Hturn); unfold failureEntry at 2; simpl;
    by rewrite Hres.
Qed.

Lemma Shutdown_world a ctx w :
  (Shutdown a ctx w).1.2
  = worldAt (logger a) (cancel ctx) (closers a) (length (closers a)) w.
Proof. rewrite Shutdown_unfold. simpl. by rewrite closeLoop_world, worldAt_all. Qed.
End ShutdownFacts.

(** ** The invariant of [Run] and its consequences *)

Section RunFacts.
Context {World : Type}.
Implicit Types (rs : list (Runner (World := World))) (s : State (World := World)).
Implicit Types (h : list (nat * option error)) (a : Application (World := World)).
Implicit Types (w : World).

Lemma firstError_app h k :
  firstError (h ++ k)
  = match firstError h with Some e => Some e | None => firstError k end.
Proof.
  induction h as [|[i [e|]] h IH]; simpl; done.
Qed.

Lemma firstError_elem i e h : (i, Some e) ∈ h -> is_Some (firstError h).
Proof.
  induction h as [|[j [e'|]] h IH]; simpl.
  - intros H. by apply elem_of_nil in H.
  - eauto.
  - rewrite elem_of_cons. intros [Heq|Hin]; [done|auto].
Qed.

Lemma firstError_split h e :
  firstError h = Some e ->
  exists pre i post,
    h = pre ++ (i, Some e) :: post /\ Forall (fun x => x.2 = None) pre.
Proof.
  induction h as [|[j [e'|]] h IH]; simpl; [done| |].
  - intros [= ->]. by exists [], j, h.
  - intros H. destruct (IH H) as (pre & i & post & -> & Hpre).
    exists ((j, None) :: pre), i, post. split; [done|]. by constructor.
Qed.

Lemma firstError_all_nil h :
  (forall i r, (i, r) ∈ h -> r = None) -> firstError h = None.
Proof.
  induction h as [|[j [e'|]] h IH]; simpl; intros H; [done| |].
  - discriminate (H j (Some e')). left.
  - apply IH. intros i r Hin. apply (H i). by right.
Qed.

(** The indices play no part in [firstError]. *)
Lemma firstError_results h h' :
  h.*2 = h'.*2 -> firstError h = firstError h'.
Proof.
  revert h'. induction h as [|[i r] h IH]; intros [|[i' r'] h']; simpl;
    try done.
  intros [= -> Heq]. destruct r'; [done|]. by apply IH.
Qed.

Lemma start_inv rs w : Inv rs (start w).
Proof.
  split; simpl; try done.
  - lia.
  - intros i. rewrite lookup_nil. split; [done|]. intros H. by apply elem_of_nil in H.
  - constructor.
  - constructor.
  - intros i ret H. by apply elem_of_nil in H.
  - intros i ret H. by apply elem_of_nil in H.
  - intros i ret H. by apply elem_of_nil in H.
Qed.

Lemma inv_cancel rs s :
  Inv rs s ->
  Inv rs {| st_ctx := cancel (st_ctx s); st_world := st_world s;
            st_group := st_group s; st_goroutines := st_goroutines s;
            st_main := st_main s; st_returns := st_returns s;
            st_arrivals := st_arrivals s |}.
Proof.
  intros [H1 H2 H3 H4 H5 H6 H7 H8 H9 H10 H11].
  split; simpl; try done.
  - intros _. apply cancel_done.
  - destruct (st_main s); try done.
    destruct H4 as (? & ? & ? & ?). repeat split; try done. apply cancel_done.
Qed.

Lemma inv_spawn rs s i runner :
  Inv rs s -> st_main s = Spawning i -> rs !! i = Some runner ->
  Inv rs {| st_ctx := st_ctx s; st_world := st_world s;
            st_group := st_group s;
            st_goroutines := st_goroutines s ++ [Started];
            st_main := Spawning (S i);
            st_returns := st_returns s;
            st_arrivals := st_arrivals s |}.
Proof.
  intros [H1 H2 H3 H4 H5 H6 H7 H8 H9 H10 H11] Hm Hr.
  rewrite Hm in H4. destruct H4 as [Hlen Hle].
  apply lookup_lt_Some in Hr as Hlt.
  split; simpl; try done.
  - rewrite length_app. simpl. lia.
  - intros j. rewrite <- H5. rewrite lookup_app.
    destruct (st_goroutines s !! j) eqn:Hj; [done|].
    destruct (j - length (st_goroutines s)) as [|[|n]]; simpl; done.
  - intros j ret Hin. destruct (H8 j ret Hin) as (r & Hrj & [Hg|Ha]); exists r; split; try done.
    + left. rewrite lookup_app_l; [done|]. by apply lookup_lt_Some in Hg.
    + by right.
  - intros j ret'. rewrite lookup_app.
    destruct (st_goroutines s !! j) eqn:Hj.
    + intros [= ->]. by apply H11.
    + destruct (j - length (st_goroutines s)) as [|[|n]]; simpl; done.
Qed.

Lemma inv_wait rs s :
  Inv rs s -> st_main s = Spawning (length rs) ->
  Inv rs {| st_ctx := st_ctx s; st_world := st_world s;
            st_group := st_group s;
            st_goroutines := st_goroutines s;
            st_main := Waiting;
            st_returns := st_returns s;
            st_arrivals := st_arrivals s |}.
Proof.
  intros [H1 H2 H3 H4 H5 H6 H7 H8 H9 H10 H11] Hm.
  rewrite Hm in H4. destruct H4 as [Hlen Hle].
  split; simpl; done.
Qed.

Lemma inv_return rs s :
  Inv rs s -> st_main s = Waiting ->
  forallb isExited (st_goroutines s) = true ->
  Inv rs {| st_ctx := groupCancel (st_ctx s); st_world := st_world s;
            st_group := st_group s;
            st_goroutines := st_goroutines s;
            st_main := Returned (err (st_group s));
            st_returns := st_returns s;
            st_arrivals := st_arrivals s |}.
Proof.
  intros [H1 H2 H3 H4 H5 H6 H7 H8 H9 H10 H11] Hm Hall.
  rewrite Hm in H4.
  split; simpl; try done.
  - intros _. apply groupCancel_done.
  - repeat split; try done; [|apply groupCancel_done].
    apply Forall_forall. intros g Hg.
    rewrite forallb_forall in Hall. apply list_elem_of_In, Hall in Hg.
    by destruct g.
Qed.

(** A runner that is still running has not returned. *)
Lemma inv_started_fresh rs s i :
  Inv rs s -> st_goroutines s !! i = Some Started -> i ∉ (st_returns s).*1.
Proof.
  intros HI Hg Hin. apply list_elem_of_fmap in Hin as ([j ret] & -> & Hin).
  simpl in Hg.
  destruct (inv_returned _ _ HI _ _ Hin) as (r & _ & [Hf|Ha]).
  - simpl in Hf. congruence.
  - assert (j ∈ (st_arrivals s).*1) as Hj.
    { apply list_elem_of_fmap. by exists (j, wrapRunnerErr r ret). }
    apply (inv_exited _ _ HI) in Hj. congruence.
Qed.

Lemma inv_runRunner rs s i runner d :
  Inv rs s -> st_goroutines s !! i = Some Started -> rs !! i = Some runner ->
  Inv rs (runRunner runner i d s).
Proof.
  intros HI Hg Hr. pose proof (inv_started_fresh _ _ _ HI Hg) as Hfresh.
  pose proof (lookup_lt_Some _ _ _ Hg) as Hlt.
  destruct HI as [H1 H2 H3 H4 H5 H6 H7 H8 H9 H10 H11].
  unfold runRunner.
  destruct (Runner_Run runner (st_world s) d) as [w' [ret|]] eqn:Hrun;
    [|split; simpl; done].
  split; simpl; try done.
  - rewrite length_insert. destruct (st_main s); try done.
    destruct H4 as (? & Hall & ? & ?). repeat split; try done.
    rewrite Forall_lookup in Hall. by specialize (Hall _ _ Hg).
  - intros j. rewrite <- H5. destruct (decide (i = j)) as [<-|Hne].
    + rewrite list_lookup_insert_eq by done. rewrite Hg. split; done.
    + by rewrite list_lookup_insert_ne.
  - rewrite fmap_app. simpl. apply NoDup_app. split; [done|]. split.
    + intros j Hj. rewrite list_elem_of_singleton. by intros ->.
    + apply NoDup_singleton.
  - intros j r. rewrite elem_of_app, list_elem_of_singleton.
    intros [Hin|[= -> ->]].
    + destruct (H8 _ _ Hin) as (r' & Hr' & Hcase). exists r'. split; [done|].
      destruct Hcase as [Hf|Ha]; [left|by right].
      destruct (decide (i = j)) as [<-|Hne]; [congruence|].
      by rewrite list_lookup_insert_ne.
    + exists runner. split; [done|]. left. by rewrite list_lookup_insert_eq.
  - intros j r. rewrite elem_of_app, list_elem_of_singleton.
    intros [Hin|[= -> ->]]; [by apply H9|].
    exists runner, (st_world s), d. by rewrite Hrun.
  - intros j r' Hin. destruct (H10 _ _ Hin) as (r1 & r2 & ? & ? & ?).
    exists r1, r2. rewrite elem_of_app. auto.
  - intros j r'. destruct (decide (i = j)) as [<-|Hne].
    + rewrite list_lookup_insert_eq by done. intros [= <-].
      exists runner, ret. rewrite elem_of_app, list_elem_of_singleton. auto.
    + rewrite list_lookup_insert_ne by done. intros Hin.
      destruct (H11 _ _ Hin) as (r1 & r2 & ? & ? & ?).
      exists r1, r2. rewrite elem_of_app. auto.
Qed.

Lemma inv_recordResult rs s i ret :
  Inv rs s -> st_goroutines s !! i = Some (Finished ret) ->
  Inv rs (recordResult i ret s).
Proof.
  intros HI Hg.
  pose proof (lookup_lt_Some _ _ _ Hg) as Hlt.
  destruct HI as [H1 H2 H3 H4 H5 H6 H7 H8 H9 H10 H11].
  assert (i ∉ (st_arrivals s).*1) as Hfresh.
  { rewrite <- H5. congruence. }
  assert (exists g c,
    (match ret with
     | Some e => errOnceDo e (st_group s) (st_ctx s)
     | None => (st_group s, st_ctx s)
     end) = (g, c) /\
    err g = firstError (st_arrivals s ++ [(i, ret)]) /\
    errOnce g = bool_decide (is_Some (err g)) /\
    (is_Some (err g) -> done c = true)) as (g & c & Hgc & G1 & G2 & G3).
  { rewrite firstError_app. simpl. rewrite <- H1.
    destruct ret as [e|]; simpl.
    - unfold errOnceDo. rewrite H2.
      destruct (err (st_group s)) as [e0|] eqn:He0; simpl.
      + eexists _, _. split; [done|]. rewrite He0. auto.
      + eexists _, _. split; [done|]. simpl. repeat split; try done.
        intros _. apply groupCancel_done.
    - eexists _, _. split; [done|]. split; [|done].
      by destruct (err (st_group s)). }
  unfold recordResult. rewrite Hgc.
  split; simpl; try done.
  - rewrite length_insert. destruct (st_main s); try done.
    destruct H4 as (? & Hall & ? & ?).
    rewrite Forall_lookup in Hall. by specialize (Hall _ _ Hg).
  - intros j. rewrite fmap_app, elem_of_app. simpl.
    rewrite list_elem_of_singleton, <- H5.
    destruct (decide (i = j)) as [<-|Hne].
    + rewrite list_lookup_insert_eq by done. split; auto.
    + rewrite list_lookup_insert_ne by done. split; [auto|].
      intros [?|?]; [done|congruence].
  - rewrite fmap_app. simpl. apply NoDup_app. split; [done|]. split.
    + intros j Hj. rewrite list_elem_of_singleton. by intros ->.
    + apply NoDup_singleton.
  - intros j r Hin. destruct (H8 _ _ Hin) as (r' & Hr' & Hcase).
    exists r'. split; [done|]. rewrite elem_of_app, list_elem_of_singleton.
    destruct Hcase as [Hf|Ha]; [|by auto].
    destruct (decide (i = j)) as [<-|Hne].
    * right. right. congruence.
    * left. by rewrite list_lookup_insert_ne.
  - intros j r'. rewrite elem_of_app, list_elem_of_singleton.
    intros [Hin|[= -> ->]]; [by apply H10|]. by apply H11.
  - intros j r'. destruct (decide (i = j)) as [<-|Hne].
    + by rewrite list_lookup_insert_eq.
    + rewrite list_lookup_insert_ne by done. apply H11.
Qed.

Lemma step_inv rs act s s' :
  Inv rs s -> step rs act s = Some s' -> Inv rs s'.
Proof.
  intros HI. destruct act as [|i|]; simpl.
  - unfold stepMain. destruct (st_main s) as [i| |ret] eqn:Hm; [| |done].
    + destruct (rs !! i) as [runner|] eqn:Hr; intros [= <-].
      * by eapply inv_spawn.
      * apply inv_wait; [done|]. rewrite Hm. f_equal.
        pose proof (inv_main _ _ HI) as H. rewrite Hm in H.
        apply lookup_ge_None in Hr. lia.
    + destruct (forallb isExited (st_goroutines s)) eqn:Hall; intros [= <-].
      by apply inv_return.
  - unfold stepGo.
    destruct (st_goroutines s !! i) as [[|ret|]|] eqn:Hg; try done.
    + destruct (rs !! i) as [runner|] eqn:Hr; intros [= <-].
      by apply inv_runRunner.
    + intros [= <-]. by apply inv_recordResult.
  - intros [= <-]. by apply inv_cancel.
Qed.

Lemma exec_inv rs sched s s' :
  Inv rs s -> exec rs sched s = Some s' -> Inv rs s'.
Proof.
  revert s. induction sched as [|act sched IH]; intros s HI; simpl.
  - by intros [= <-].
  - destruct (step rs act s) as [s1|] eqn:Hstep; [|done].
    apply IH. by eapply step_inv.
Qed.

Lemma reachable_inv (a : Application) w s :
  reachable a w s -> Inv (runners a) s.
Proof. intros [sched H]. eapply exec_inv; [apply start_inv|exact H]. Qed.

Lemma NoDup_fst_functional h i r1 r2 :
  NoDup h.*1 -> (i, r1) ∈ h -> (i, r2) ∈ h -> r1 = r2.
Proof.
  induction h as [|[j r] h IH]; simpl.
  - intros _ H. by apply elem_of_nil in H.
  - rewrite NoDup_cons, !elem_of_cons. intros [Hj Hnd] [H1|H1] [H2|H2].
    + congruence.
    + injection H1 as -> ->. destruct Hj.
      apply list_elem_of_fmap. by exists (j, r2).
    + injection H2 as -> ->. destruct Hj.
      apply list_elem_of_fmap. by exists (j, r1).
    + by apply IH.
Qed.

(** When [Run] has returned, every runner has returned and its result
    has reached the group. *)
Lemma returned_all_arrived rs s ret :
  Inv rs s -> st_main s = Returned ret ->
  (forall i, i < length rs -> st_goroutines s !! i = Some Exited) /\
  (forall i, i ∈ (st_arrivals s).*1 <-> i < length rs) /\
  (forall i r runner, (i, r) ∈ st_returns s -> rs !! i = Some runner ->
     (i, wrapRunnerErr runner r) ∈ st_arrivals s).
Proof.
  intros HI Hm. pose proof (inv_main _ _ HI) as H. rewrite Hm in H.
  destruct H as (Hlen & Hall & _ & _). rewrite Forall_lookup in Hall.
  assert (forall i, i < length rs -> st_goroutines s !! i = Some Exited) as Hex.
  { intros i Hi. destruct (lookup_lt_is_Some_2 (st_goroutines s) i) as [g Hg];
      [lia|]. by rewrite Hg, (Hall _ _ Hg). }
  split; [done|]. split.
  - intros i. rewrite <- (inv_exited _ _ HI). split; [|auto].
    intros Hi%lookup_lt_Some. lia.
  - intros i r runner Hin Hr.
    destruct (inv_returned _ _ HI _ _ Hin) as (runner' & Hr' & [Hf|Ha]).
    + apply lookup_lt_Some in Hr. rewrite (Hex i Hr) in Hf. done.
    + congruence.
Qed.

Lemma step_done rs act s s' :
  step rs act s = Some s' -> done (st_ctx s) = true -> done (st_ctx s') = true.
Proof.
  destruct act as [|i|]; simpl.
  - unfold stepMain. destruct (st_main s) as [i| |ret]; [| |done].
    + destruct (rs !! i); by intros [= <-].
    + destruct (forallb isExited (st_goroutines s)); intros [= <-]; simpl.
      intros _. apply groupCancel_done.
  - unfold stepGo.
    destruct (st_goroutines s !! i) as [[|ret|]|]; try done.
    + destruct (rs !! i) as [runner|]; intros [= <-]. unfold runRunner.
      by destruct (Runner_Run runner (st_world s) _) as [w' [ret|]].
    + intros [= <-]. unfold recordResult.
      destruct ret as [e|]; [|done]. unfold errOnceDo.
      destruct (errOnce (st_group s)); simpl; [done|].
      intros _. apply groupCancel_done.
  - intros [= <-] _. simpl. apply cancel_done.
Qed.

Lemma exec_done rs sched s s' :
  exec rs sched s = Some s' -> done (st_ctx s) = true -> done (st_ctx s') = true.
Proof.
  revert s. induction sched as [|act sched IH]; intros s; simpl.
  - by intros [= <-].
  - destruct (step rs act s) as [s1|] eqn:Hstep; [|done].
    intros Hex Hd. eapply IH; [done|]. by eapply step_done.
Qed.

Lemma recordResult_failure_done i e s :
  done (st_ctx s) = true \/ err (st_group s) = None ->
  errOnce (st_group s) = bool_decide (is_Some (err (st_group s))) ->
  done (st_ctx (recordResult i (Some e) s)) = true.
Proof.
  intros Hcase Honce. unfold recordResult, errOnceDo. rewrite Honce.
  destruct Hcase as [Hd|Hn].
  - destruct (bool_decide _); simpl; [done|apply groupCancel_done].
  - rewrite Hn. simpl. apply groupCancel_done.
Qed.

Lemma returned_nil rs s ret :
  Inv rs s -> st_main s = Returned ret ->
  (forall i r, (i, r) ∈ st_returns s -> r = None) -> ret = None.
Proof.
  intros HI Hm Hall.
  pose proof (inv_main _ _ HI) as Hmain. rewrite Hm in Hmain.
  destruct Hmain as (_ & _ & -> & _). rewrite (inv_latch _ _ HI).
  apply firstError_all_nil. intros i r' Hin.
  destruct (inv_arrived _ _ HI _ _ Hin) as (runner & r & _ & Hret & ->).
  by rewrite (Hall _ _ Hret).
Qed.


(** *** Progress of [Run] when runners return at once *)

Lemma find_not_exited (gs : list Goroutine) :
  forallb isExited gs = false ->
  exists i g, gs !! i = Some g /\ g <> Exited.
Proof.
  induction gs as [|g gs IH]; simpl; [done|].
  destruct g; simpl.
  - intros _. by exists 0, Started.
  - intros _. by exists 0, (Finished ret).
  - intros H. destruct (IH H) as (i & g & Hg & Hne). by exists (S i), g.
Qed.

Lemma weight_insert (gs : list Goroutine) i g g' :
  gs !! i = Some g ->
  sum_list (weight <$> <[i:=g']> gs) + weight g
  = sum_list (weight <$> gs) + weight g'.
Proof.
  revert i. induction gs as [|g0 gs IH]; intros [|i]; simpl; try done.
  - intros [= ->]. clear IH. lia.
  - intros H. specialize (IH _ H). unfold fmap in IH. lia.
Qed.

Lemma weight_snoc (gs : list Goroutine) g :
  sum_list (weight <$> gs ++ [g]) = sum_list (weight <$> gs) + weight g.
Proof. rewrite fmap_app, sum_list_with_app. simpl. lia. Qed.



Lemma append_assoc (s1 s2 s3 : string) :
  (s1 +:+ s2) +:+ s3 = s1 +:+ s2 +:+ s3.
Proof.
  induction s1 as [|c s1 IH]; [done|].
  change (String c ((s1 +:+ s2) +:+ s3) = String c (s1 +:+ s2 +:+ s3)).
  by rewrite IH.
Qed.

(** C1.  Whenever [Run] has returned, what it returns is the first
    non-nil result in the order in which the results reached the group,
    under every schedule and wherever the runners stand in the
    registration list: the statement reads the history of arrivals only.
    The results that reached the group are those of all the registered
    runners, each once, each wrapped by its own goroutine.  So when at
    least one runner has returned a non-nil error, [Run] returns the
    error that arrived first, and every result that arrived before it
    was nil.  Two runs, of whatever applications, in which the same
    results reached the group in the same order return the same. *)
Theorem Run_returns_first_arrival a w s ret :
  reachable a w s -> st_main s = Returned ret ->
  ret = firstError (st_arrivals s) /\
  NoDup (st_arrivals s).*1 /\
  (forall i, i ∈ (st_arrivals s).*1 <-> i < length (runners a)) /\
  (forall i ret', (i, ret') ∈ st_arrivals s ->
     exists runner r, runners a !! i = Some runner /\
       (i, r) ∈ st_returns s /\ ret' = wrapRunnerErr runner r) /\
  ((exists i e, (i, Some e) ∈ st_returns s) ->
   exists pre i e post,
     st_arrivals s = pre ++ (i, Some e) :: post /\
     Forall (fun x => x.2 = None) pre /\
     ret = Some e) /\
  (forall a' w' s' ret',
     reachable a' w' s' -> st_main s' = Returned ret' ->
     (st_arrivals s').*2 = (st_arrivals s).*2 -> ret' = ret).
Proof.
  intros Hreach Hm.
  assert (forall a1 w1 (s1 : State (World := World)) ret1,
            reachable a1 w1 s1 -> st_main s1 = Returned ret1 ->
            ret1 = firstError (st_arrivals s1)) as Hfirst.
  { intros a1 w1 s1 ret1 HI1%reachable_inv Hm1.
    pose proof (inv_main _ _ HI1) as Hmain. rewrite Hm1 in Hmain.
    destruct Hmain as (_ & _ & -> & _). apply (inv_latch _ _ HI1). }
  cut ((ret = firstError (st_arrivals s) /\
        NoDup (st_arrivals s).*1 /\
        (forall i, i ∈ (st_arrivals s).*1 <-> i < length (runners a)) /\
        (forall i ret', (i, ret') ∈ st_arrivals s ->
           exists runner r, runners a !! i = Some runner /\
             (i, r) ∈ st_returns s /\ ret' = wrapRunnerErr runner r) /\
        ((exists i e, (i, Some e) ∈ st_returns s) ->
         exists pre i e post,
           st_arrivals s = pre ++ (i, Some e) :: post /\
           Forall (fun x => x.2 = None) pre /\
           ret = Some e))).
  { intros (H1 & H2 & H3 & H4 & H5). repeat (split; [done|]).
    intros a' w' s' ret' Hreach' Hm' Heq.
    rewrite H1, (Hfirst _ _ _ _ Hreach' Hm'). by apply firstError_results. }
  apply reachable_inv in Hreach as HI.
  pose proof (inv_main _ _ HI) as Hmain. rewrite Hm in Hmain.
  destruct Hmain as (_ & _ & -> & _).
  destruct (returned_all_arrived _ _ _ HI Hm) as (_ & Hdom & Harr).
  split; [apply (inv_latch _ _ HI)|].
  split; [apply (inv_arrivals_nodup _ _ HI)|].
  split; [done|]. split; [apply (inv_arrived _ _ HI)|].
  intros (i & e & Hin).
  destruct (inv_returned _ _ HI _ _ Hin) as (runner & Hr & _).
  pose proof (Harr _ _ _ Hin Hr) as Ha. simpl in Ha.
  destruct (firstError_elem _ _ _ Ha) as [e1 He1].
  destruct (firstError_split _ _ He1) as (pre & j & post & Hsplit & Hpre).
  exists pre, j, e1, post. rewrite (inv_latch _ _ HI). done.
Qed.

(** C2 (as amended).  When [Run] has returned and the registered runner
    [i] has returned a non-nil error [e], then [e] wrapped with the type
    of that runner, whose message reads "start runner[<type>]: <message
    of e>", has reached the group; and what [Run] returns is non-nil and
    is the error of a failing runner wrapped in that way, namely of the
    one that reached the group first.  It is the error of runner [i]
    whenever no other runner has failed. *)
Theorem Run_error_wraps_failing_runner a w s ret i runner e :
  reachable a w s -> st_main s = Returned ret ->
  runners a !! i = Some runner -> (i, Some e) ∈ st_returns s ->
  let wrapped := withMessage e ("start runner[" +:+ runnerType runner +:+ "]") in
  (i, Some wrapped) ∈ st_arrivals s /\
  Error wrapped = "start runner[" +:+ runnerType runner +:+ "]: " +:+ Error e /\
  exists j runner' e',
    runners a !! j = Some runner' /\ (j, Some e') ∈ st_returns s /\
    ret = Some (withMessage e' ("start runner[" +:+ runnerType runner' +:+ "]")) /\
    ret = firstError (st_arrivals s) /\
    ((forall k e'', (k, Some e'') ∈ st_returns s -> k = i) -> j = i /\ e' = e).
Proof.
  intros HI%reachable_inv Hm Hr Hin wrapped.
  pose proof (inv_main _ _ HI) as Hmain. rewrite Hm in Hmain.
  destruct Hmain as (_ & _ & -> & _).
  destruct (returned_all_arrived _ _ _ HI Hm) as (_ & _ & Harr).
  pose proof (Harr _ _ _ Hin Hr) as Ha. simpl in Ha.
  split; [done|]. split.
  { simpl. by rewrite !append_assoc. }
  destruct (firstError_elem _ _ _ Ha) as [e1 He1].
  destruct (firstError_split _ _ He1) as (pre & j & post & Hsplit & _).
  assert ((j, Some e1) ∈ st_arrivals s) as Hj.
  { rewrite Hsplit, elem_of_app, elem_of_cons. auto. }
  destruct (inv_arrived _ _ HI _ _ Hj) as (runner' & r & Hr' & Hret & Hw).
  destruct r as [e'|]; [|done]. injection Hw as ->.
  exists j, runner', e'. split; [done|]. split; [done|].
  rewrite (inv_latch _ _ HI). split; [done|]. split; [done|].
  intros Honly. pose proof (Honly _ _ Hret) as ->. split; [done|].
  pose proof (NoDup_fst_functional _ _ _ _ (inv_returns_nodup _ _ HI) Hin Hret).
  congruence.
Qed.

(** C3 (as amended).  A failure cancels the shared context when the
    group records it.  In every state [Run] can reach: once a non-nil
    result has reached the group, the context is done; a failure that a
    runner has returned and that has not reached the group yet is
    recorded by the next step of its goroutine, which leaves the context
    done; while the context is done, a runner that is still running takes
    its next step finding it done; a context that is done stays done; and
    when [Run] has returned, the context is done and every goroutine has
    exited, so the cancellation came before the return of [Run]. *)
Theorem Run_failure_cancels_context a w s :
  reachable a w s ->
  ((exists i e, (i, Some e) ∈ st_arrivals s) -> done (st_ctx s) = true) /\
  (forall i e, (i, Some e) ∈ st_returns s ->
     done (st_ctx s) = true \/
     exists e', st_goroutines s !! i = Some (Finished (Some e')) /\
       step (runners a) (ActGo i) s = Some (recordResult i (Some e') s) /\
       done (st_ctx (recordResult i (Some e') s)) = true) /\
  (forall i runner,
     done (st_ctx s) = true ->
     st_goroutines s !! i = Some Started -> runners a !! i = Some runner ->
     step (runners a) (ActGo i) s = Some (runRunner runner i true s)) /\
  (forall sched s',
     exec (runners a) sched s = Some s' ->
     done (st_ctx s) = true -> done (st_ctx s') = true) /\
  (forall ret, st_main s = Returned ret ->
     done (st_ctx s) = true /\
     forall i, i < length (runners a) -> st_goroutines s !! i = Some Exited).
Proof.
  intros HI%reachable_inv.
  assert ((exists i e, (i, Some e) ∈ st_arrivals s) -> done (st_ctx s) = true)
    as Hrec.
  { intros (i & e & Hin). apply (inv_cancelled _ _ HI).
    rewrite (inv_latch _ _ HI). by eapply firstError_elem. }
  split; [done|]. split; [|split; [|split; [|]]].
  - intros i e Hin.
    destruct (inv_returned _ _ HI _ _ Hin) as (runner & Hr & [Hf|Ha]).
    + right. simpl in Hf. eexists. split; [done|]. split.
      * simpl. unfold stepGo. by rewrite Hf.
      * apply recordResult_failure_done; [|apply (inv_once _ _ HI)].
        destruct (err (st_group s)) eqn:Herr; [left|by right].
        apply (inv_cancelled _ _ HI). by rewrite Herr.
    + left. apply Hrec. simpl in Ha. eauto.
  - intros i runner Hd Hg Hr. simpl. unfold stepGo. by rewrite Hg, Hr, Hd.
  - intros sched s'. apply exec_done.
  - intros ret Hm. pose proof (inv_main _ _ HI) as Hmain. rewrite Hm in Hmain.
    destruct Hmain as (_ & _ & _ & Hd). split; [done|].
    by destruct (returned_all_arrived _ _ _ HI Hm) as (? & _).
Qed.

End RunFacts.

(** ** [Shutdown], [New] and the registration lists *)

Section ShutdownClaims.
Context {World : Type}.
Implicit Types (a : Application (World := World)) (lg : Adapter (World := World)).
Implicit Types (cs : list (Closer (World := World))) (w : World) (ctx : Context).

(** C5.  For a list of closers of any length, one call of [Shutdown]
    makes the release calls of index 0, 1, ... in the order of the list,
    one call for each closer, whatever the calls return: an error of an
    earlier closer does not stop the loop.  [AddClosers] appends, so the
    order of registration is the order of release.  The calls are made
    one after the other: the release of index 0 is called in the world
    [Shutdown] starts in, the release of index [i + 1] in the world that
    the release of index [i] left (after the logger was told, when that
    release failed), each event holds what the release returned there,
    and [Shutdown] leaves the world that the last turn left. *)
Theorem Shutdown_closes_all_in_order a cs ctx w :
  closeCalls (Shutdown a ctx w).2 = imap (fun i c => (i, c)) (closers a) /\
  closers (AddClosers a cs) = closers a ++ cs /\
  closeCalls (Shutdown (AddClosers a cs) ctx w).2
  = imap (fun i c => (i, c)) (closers a ++ cs) /\
  length (closeCalls (Shutdown (AddClosers a cs) ctx w).2)
  = length (closers a) + length cs /\
  (forall a' : Application (World := World),
     closeResults (Shutdown a' ctx w).2
     = imap (fun i c =>
               (i, c,
                (Closer_Close c
                   (worldAt (logger a') (cancel ctx) (closers a') i w)).2))
            (closers a') /\
     worldAt (logger a') (cancel ctx) (closers a') 0 w = w /\
     (forall i c,
        closers a' !! i = Some c ->
        worldAt (logger a') (cancel ctx) (closers a') (S i) w
        = match (Closer_Close c
                   (worldAt (logger a') (cancel ctx) (closers a') i w)).2 with
          | Some e =>
              Adapter_Error (logger a')
                (Closer_Close c
                   (worldAt (logger a') (cancel ctx) (closers a') i w)).1
                (cancel ctx) e [("closer", closerType c)]
          | None =>
              (Closer_Close c
                 (worldAt (logger a') (cancel ctx) (closers a') i w)).1
          end) /\
     (Shutdown a' ctx w).1.2
     = worldAt (logger a') (cancel ctx) (closers a') (length (closers a')) w).
Proof.
  assert (forall a', closeCalls (Shutdown a' ctx w).2
                     = imap (fun i c => (i, c)) (closers a')) as H.
  { intros a'. rewrite Shutdown_unfold. simpl. apply closeLoop_closeCalls. }
  split; [apply H|]. split; [done|]. split; [apply H|].
  split; [rewrite H; simpl; by rewrite length_imap, length_app|].
  intros a'. split; [|split; [done|split]].
  - rewrite Shutdown_unfold. simpl. apply closeLoop_results.
  - intros i c Hi. rewrite (worldAt_S _ _ _ _ _ _ Hi). apply releaseTurn_cases.
  - apply Shutdown_world.
Qed.

(** C6.  When, during [Shutdown], the release of the closer of index
    [i], called in the world the turns before it left, returns a non-nil
    error [e], the next thing [Shutdown] does is to hand [e] to the
    logger with the field "closer" set to the type of that closer: the
    world of the next turn is what [Error] of the logger left.  It then
    releases every closer after index [i], in order: the world it leaves
    is what the turns of the remaining closers make of that world.
    [Shutdown] has no result (here: the state and the events it leaves),
    so the error reaches no caller. *)
Theorem Shutdown_logs_closer_error a ctx w i closer e :
  closers a !! i = Some closer ->
  (Closer_Close closer
     (worldAt (logger a) (cancel ctx) (closers a) i w)).2 = Some e ->
  worldAt (logger a) (cancel ctx) (closers a) (S i) w
  = Adapter_Error (logger a)
      (Closer_Close closer
         (worldAt (logger a) (cancel ctx) (closers a) i w)).1
      (cancel ctx) e [("closer", closerType closer)] /\
  (Shutdown a ctx w).1.2
  = foldl (fun w' c => releaseTurn (logger a) (cancel ctx) c w')
          (worldAt (logger a) (cancel ctx) (closers a) (S i) w)
          (drop (S i) (closers a)) /\
  (e, [("closer", closerType closer)]) ∈ logged (Shutdown a ctx w).2 /\
  exists pre post,
    (Shutdown a ctx w).2
    = pre ++ EvClose i closer (Some e)
          :: EvLogError e [("closer", closerType closer)] :: post /\
    closeCalls post = imap (fun j c => (S i + j, c)) (drop (S i) (closers a)).
Proof.
  intros Hi Hres.
  split; [rewrite (worldAt_S _ _ _ _ _ _ Hi), releaseTurn_cases; by rewrite Hres|].
  split; [by rewrite Shutdown_world, worldAt_drop|].
  assert (EvClose i closer (Some e)
            ∈ (closeLoop (logger a) (cancel ctx) (closers a) 0 w).2) as Hin.
  { apply closeResults_elem. rewrite closeLoop_results.
    apply list_elem_of_lookup. exists i.
    rewrite list_lookup_imap, Hi. simpl. by rewrite Hres. }
  destruct (closeLoop_failure _ _ _ _ _ _ _ _ Hin)
    as (j & pre & post & Hj & _ & Hevs & Hpost).
  simpl in Hj. subst j.
  rewrite Shutdown_unfold. simpl. split.
  - rewrite Hevs. clear.
    induction pre as [|[|j c r|e' f] pre IH]; simpl; rewrite ?elem_of_cons; auto.
  - exists (EvCancel :: pre), post. by rewrite Hevs.
Qed.

(** C7.  Every call of [Shutdown], in whatever state of the context,
    starts by calling [a.cancel] and calls it once; all the release calls
    come after it.  After the call the context is done.  Cancelling a
    second time changes nothing, and when the context of the runners is
    done already, as it is once [Run] has returned, cancelling leaves it
    done.  The whole loop runs with the context already cancelled: the
    world [Shutdown] leaves is the one its turns make when each is taken
    under the cancelled context, and the context the logger is handed
    with the error of a failed release is the cancelled one, which is
    done. *)
Theorem Shutdown_cancels_first a ctx w :
  (exists w' evs,
     Shutdown a ctx w = (cancel ctx, w', EvCancel :: evs) /\
     (EvCancel ∉ evs) /\
     closeCalls evs = imap (fun i c => (i, c)) (closers a)) /\
  done (cancel ctx) = true /\
  cancel (cancel ctx) = cancel ctx /\
  (done ctx = true -> done (cancel ctx) = done ctx) /\
  (forall a' w0 (s : State (World := World)) ret,
     reachable a' w0 s -> st_main s = Returned ret ->
     done (st_ctx s) = true /\ done (cancel (st_ctx s)) = done (st_ctx s)) /\
  (Shutdown a ctx w).1.2
  = foldl (fun w' c => releaseTurn (logger a) (cancel ctx) c w') w (closers a) /\
  (forall i c e,
     closers a !! i = Some c ->
     (Closer_Close c (worldAt (logger a) (cancel ctx) (closers a) i w)).2
     = Some e ->
     worldAt (logger a) (cancel ctx) (closers a) (S i) w
     = Adapter_Error (logger a)
         (Closer_Close c (worldAt (logger a) (cancel ctx) (closers a) i w)).1
         (cancel ctx) e [("closer", closerType c)] /\
     done (cancel ctx) = true).
Proof.
  split; [|split; [|split; [|split; [|split; [|split]]]]].
  - rewrite Shutdown_unfold. eexists _, _. split; [done|].
    split; [apply closeLoop_no_cancel|apply closeLoop_closeCalls].
  - apply cancel_done.
  - apply cancel_idempotent.
  - apply cancel_keeps_done.
  - intros a' w0 s ret HI%reachable_inv Hm.
    pose proof (inv_main _ _ HI) as Hmain. rewrite Hm in Hmain.
    destruct Hmain as (_ & _ & _ & Hd). split; [done|].
    by apply cancel_keeps_done.
  - by rewrite Shutdown_world, worldAt_all.
  - intros i c e Hi Hres. split; [|apply cancel_done].
    rewrite (worldAt_S _ _ _ _ _ _ Hi), releaseTurn_cases. by rewrite Hres.
Qed.

Lemma register_logger a regs : logger (register a regs) = logger a.
Proof.
  revert a. induction regs as [|[rs|cs] regs IH]; intros a; simpl; [done|..];
    by rewrite IH.
Qed.

Lemma register_closers a regs :
  closers (register a regs) = closers a ++ registeredClosers regs.
Proof.
  revert a. induction regs as [|[rs|cs] regs IH]; intros a; simpl.
  - by rewrite app_nil_r.
  - by rewrite IH.
  - rewrite IH. simpl. by rewrite app_assoc.
Qed.

Lemma New_Ok {ConfigOption : Type}
    (config_New : list ConfigOption -> result Config)
    (log_New : list LogOption -> result Adapter)
    isDev cfgOpts a :
  New config_New log_New isDev cfgOpts = Ok a ->
  runners a = [] /\ closers a = [adapterCloser (logger a)].
Proof.
  unfold New. destruct (config_New cfgOpts) as [c|]; [|done].
  destruct (log_New _) as [lg|]; [|done]. by intros [= <-].
Qed.

(** C9.  When [New] succeeds, the list of closers is the logger alone.
    After any calls of [AddRunners] and [AddClosers] it is the logger
    followed by the closers registered, in order, so it is never empty.
    Every [Shutdown] then releases the logger first, at index 0, before
    any registered closer, and every error it hands to the logger is
    handed after that release.  The release of the logger is called in
    the world [Shutdown] starts in; every registered closer is released,
    and every error of one is handed to the logger, in a world that the
    release of the logger has already changed; and [Shutdown] leaves the
    world that the turns of the registered closers make of the world the
    turn of the logger left. *)
Theorem New_registers_logger_first {ConfigOption : Type}
    (config_New : list ConfigOption -> result Config)
    (log_New : list LogOption -> result Adapter)
    isDev cfgOpts a0 :
  New config_New log_New isDev cfgOpts = Ok a0 ->
  closers a0 = [adapterCloser (logger a0)] /\
  forall regs ctx w,
    let a := register a0 regs in
    logger a = logger a0 /\
    closers a = adapterCloser (logger a0) :: registeredClosers regs /\
    (exists w' evs,
      Shutdown a ctx w
      = (cancel ctx, w',
         EvCancel
           :: EvClose 0 (adapterCloser (logger a0))
                (Adapter_Close (logger a0) w).2
           :: evs) /\
      closeCalls evs = imap (fun j c => (S j, c)) (registeredClosers regs) /\
      forall e fields,
        EvLogError e fields ∈ (Shutdown a ctx w).2 -> EvLogError e fields ∈ evs) /\
    let afterLogger :=
      match (Adapter_Close (logger a0) w).2 with
      | Some e =>
          Adapter_Error (logger a0) (Adapter_Close (logger a0) w).1
            (cancel ctx) e [("closer", "*log.Adapter")]
      | None => (Adapter_Close (logger a0) w).1
      end in
    closeResults (Shutdown a ctx w).2
    = (0, adapterCloser (logger a0), (Adapter_Close (logger a0) w).2)
        :: imap (fun j c =>
                   (S j, c,
                    (Closer_Close c
                       (worldAt (logger a0) (cancel ctx)
                          (registeredClosers regs) j afterLogger)).2))
                (registeredClosers regs) /\
    (Shutdown a ctx w).1.2
    = foldl (fun w' c => releaseTurn (logger a0) (cancel ctx) c w')
            afterLogger (registeredClosers regs).
Proof.
  intros [_ Hcl]%New_Ok. split; [done|]. intros regs ctx w a.
  assert (closers a = adapterCloser (logger a0) :: registeredClosers regs) as Ha.
  { unfold a. by rewrite register_closers, Hcl. }
  assert (logger a = logger a0) as Hlg by apply register_logger.
  split; [done|]. split; [done|]. split.
  - rewrite Shutdown_unfold, Ha, closeLoop_cons. simpl.
    destruct (Adapter_Close (logger a0) w).2 as [e0|] eqn:Hres; simpl.
    + eexists _, (EvLogError e0 _ :: _). split; [done|]. split.
      * simpl. by rewrite closeLoop_closeCalls.
      * intros e fields. rewrite !elem_of_cons.
        intros [?|[?|H]]; [done|done|exact H].
    + eexists _, _. split; [done|]. split.
      * by rewrite closeLoop_closeCalls.
      * intros e fields. rewrite !elem_of_cons.
        intros [?|[?|H]]; [done|done|exact H].
  - intros afterLogger.
    assert (releaseTurn (logger a0) (cancel ctx) (adapterCloser (logger a0)) w
            = afterLogger) as Hturn by apply releaseTurn_cases.
    split.
    + rewrite Shutdown_unfold. simpl. rewrite closeLoop_results, Ha, Hlg. simpl.
      f_equal. apply imap_ext. intros j c _. simpl.
      by rewrite worldAt_cons, Hturn.
    + rewrite Shutdown_world, worldAt_all, Ha, Hlg. simpl. by rewrite Hturn.
Qed.

(** C8 (as amended).  On an application as [New] returns it, with no
    runner and no closer registered: [Run] returns nil by the two steps
    of its caller alone, without starting a goroutine; it can return
    nothing but nil, and [Wait] never blocks.  [Shutdown] releases the
    logger that [New] registered and nothing else; it logs no error when
    that release returns nil, and logs the error of that release, with
    the field "closer" set to "*log.Adapter", when it does not. *)
Theorem fresh_application_runs_and_shuts_down {ConfigOption : Type}
    (config_New : list ConfigOption -> result Config)
    (log_New : list LogOption -> result Adapter)
    isDev cfgOpts a :
  New config_New log_New isDev cfgOpts = Ok a ->
  (forall w,
     (exists s, Run a [ActMain; ActMain] (start w) = Some s /\
        st_main s = Returned None /\ st_goroutines s = []) /\
     (forall s ret, reachable a w s -> st_main s = Returned ret -> ret = None) /\
     (forall s, reachable a w s -> st_main s = Waiting ->
        exists s', step (runners a) ActMain s = Some s' /\
          st_main s' = Returned None)) /\
  (forall ctx w,
     closeCalls (Shutdown a ctx w).2 = [(0, adapterCloser (logger a))] /\
     logged (Shutdown a ctx w).2
     = match (Adapter_Close (logger a) w).2 with
       | Some e => [(e, [("closer", "*log.Adapter")])]
       | None => []
       end /\
     ((Adapter_Close (logger a) w).2 = None -> logged (Shutdown a ctx w).2 = [])).
Proof.
  intros [Hrs Hcl]%New_Ok. split.
  - intros w. split; [|split].
    + unfold Run. rewrite Hrs. simpl. eauto.
    + intros s ret Hreach Hm.
      pose proof (reachable_inv _ _ _ Hreach) as HI.
      apply (returned_nil _ _ _ HI Hm). intros i r Hin.
      destruct (inv_returns_real _ _ HI _ _ Hin) as (runner & _ & _ & Hr & _).
      rewrite Hrs in Hr. done.
    + intros s Hreach Hm.
      pose proof (reachable_inv _ _ _ Hreach) as HI.
      pose proof (inv_main _ _ HI) as Hmain. rewrite Hm, Hrs in Hmain.
      simpl in Hmain. apply nil_length_inv in Hmain.
      simpl. unfold stepMain. rewrite Hm, Hmain. simpl.
      eexists; split; [done|]. simpl. f_equal.
      rewrite (inv_latch _ _ HI).
      apply firstError_all_nil. intros i r Hin.
      assert (i ∈ (st_arrivals s).*1) as Hi.
      { apply list_elem_of_fmap. by exists (i, r). }
      apply (inv_exited _ _ HI) in Hi. by rewrite Hmain in Hi.
  - intros ctx w. rewrite Shutdown_unfold, Hcl, closeLoop_cons. simpl.
    destruct (Adapter_Close (logger a) w).2 as [e0|] eqn:Hres; simpl; done.
Qed.
End ShutdownClaims.

(** ** The statements above at the sample applications *)

Lemma Run_returns_first_arrival_witness :
  Run appBoomCrash schedOvertake (start []) = Some stOvertake /\
  st_main stOvertake
  = Returned (Some (withMessage (errorString "crash")
                                "start runner[*cron.Scheduler]")) /\
  Some (withMessage (errorString "crash") "start runner[*cron.Scheduler]")
  = firstError (st_arrivals stOvertake).
Proof.
  split; [reflexivity|]. split; [reflexivity|].
  exact (proj1 (Run_returns_first_arrival appBoomCrash [] stOvertake _
                  (ex_intro _ schedOvertake eq_refl) eq_refl)).
Defined.

(** C2 as stated fails: with two failing runners, the error [Run]
    returns is not the error of the runner that reached the group
    second. *)
Lemma Run_error_not_of_every_failing_runner :
  ~ (forall (a : Application (World := Journal)) w s ret i runner e,
       reachable a w s -> st_main s = Returned ret ->
       runners a !! i = Some runner -> (i, Some e) ∈ st_returns s ->
       ret = Some (withMessage e ("start runner[" +:+ runnerType runner +:+ "]"))).
Proof.
  intros H.
  assert ((1, Some (errorString "crash")) ∈ st_returns stFirstFirst) as Hin.
  { apply list_elem_of_In. simpl. auto. }
  specialize (H appBoomCrash [] stFirstFirst _ 1 runnerCrash (errorString "crash")
                (ex_intro _ schedFirstFirst eq_refl) eq_refl eq_refl Hin).
  discriminate H.
Qed.

Lemma Run_error_wraps_failing_runner_witness :
  Run appWaitBoom schedSecondFirst (start []) = Some stWaitBoom /\
  (1, Some (withMessage (errorString "boom") "start runner[*kafka.Consumer]"))
    ∈ st_arrivals stWaitBoom.
Proof.
  split; [reflexivity|].
  refine (proj1 (Run_error_wraps_failing_runner appWaitBoom [] stWaitBoom _ 1
                   runnerBoom (errorString "boom")
                   (ex_intro _ schedSecondFirst eq_refl) eq_refl eq_refl _)).
  apply list_elem_of_In. simpl. auto.
Defined.

Lemma Run_failure_cancels_context_witness :
  Run appWaitBoom schedBoomRecorded (start []) = Some stBoomRecorded /\
  done (st_ctx stBoomRecorded) = true /\
  step (runners appWaitBoom) (ActGo 0) stBoomRecorded
  = Some (runRunner runnerWait 0 true stBoomRecorded).
Proof.
  split; [reflexivity|].
  destruct (Run_failure_cancels_context appWaitBoom [] stBoomRecorded
              (ex_intro _ schedBoomRecorded eq_refl))
    as (Hrec & _ & Hsees & _).
  assert (done (st_ctx stBoomRecorded) = true) as Hd.
  { apply Hrec. eexists 1, _. apply list_elem_of_In. simpl. left. reflexivity. }
  split; [exact Hd|]. exact (Hsees 0 runnerWait Hd eq_refl eq_refl).
Defined.

(** C3 as stated fails: after a runner has failed and before the group
    has recorded the failure, the context is not done and a runner that
    is still running does not find it done. *)
Lemma Run_failure_precedes_cancellation :
  ~ (forall (a : Application (World := Journal)) w s i e j runner,
       reachable a w s -> (i, Some e) ∈ st_returns s ->
       st_goroutines s !! j = Some Started -> runners a !! j = Some runner ->
       done (st_ctx s) = true /\
       step (runners a) (ActGo j) s = Some (runRunner runner j true s)).
Proof.
  intros H.
  assert ((1, Some (errorString "boom")) ∈ st_returns stBoomReturned) as Hin.
  { apply list_elem_of_In. simpl. auto. }
  destruct (H appWaitBoom [] stBoomReturned 1 (errorString "boom") 0 runnerWait
              (ex_intro _ schedBoomReturned eq_refl) Hin eq_refl eq_refl)
    as [Hd _].
  discriminate Hd.
Qed.


Lemma Shutdown_closes_all_in_order_witness :
  closeResults (Shutdown appXYZ newContext []).2
  = [(0, adapterCloser quietLogger, None); (1, closerX, None);
     (2, closerY, Some (errorString "disk full")); (3, closerZ, None)] /\
  worldAt quietLogger AllDone (closers appXYZ) 2 []
  = ["logger closed"; "db closed"] /\
  (Shutdown appXYZ newContext []).1.2
  = ["logger closed"; "db closed"; "error: disk full"; "redis closed"].
Proof.
  destruct (Shutdown_closes_all_in_order appXYZ [] newContext [])
    as (_ & _ & _ & _ & H).
  destruct (H appXYZ) as (Hres & _ & Hstep & Hlast).
  split; [exact Hres|]. split.
  - exact (Hstep 1 closerX eq_refl).
  - exact Hlast.
Defined.

Lemma Shutdown_logs_closer_error_witness :
  worldAt quietLogger AllDone (closers appXYZ) 3 []
  = ["logger closed"; "db closed"; "error: disk full"] /\
  (Shutdown appXYZ newContext []).1.2
  = ["logger closed"; "db closed"; "error: disk full"; "redis closed"] /\
  (errorString "disk full", [("closer", "*os.File")])
    ∈ logged (Shutdown appXYZ newContext []).2.
Proof.
  destruct (Shutdown_logs_closer_error appXYZ newContext [] 2 closerY
              (errorString "disk full") eq_refl eq_refl)
    as (Hlog & Hrest & Hin & _).
  split; [exact Hlog|]. split; [exact Hrest|exact Hin].
Defined.

Lemma Shutdown_cancels_first_witness :
  Run appWaitBoom schedSecondFirst (start []) = Some stWaitBoom /\
  done (st_ctx stWaitBoom) = true /\
  done (cancel (st_ctx stWaitBoom)) = done (st_ctx stWaitBoom) /\
  worldAt tellingLogger (cancel newContext) (closers appTelling) 3 []
  = ["logger closed"; "db closed"; "cancelled, disk full"] /\
  (Shutdown appTelling newContext []).1.2
  = ["logger closed"; "db closed"; "cancelled, disk full"; "redis closed"].
Proof.
  split; [reflexivity|].
  destruct (Shutdown_cancels_first appTelling newContext [])
    as (_ & _ & _ & _ & H & Hworld & Hlog).
  destruct (H appWaitBoom [] stWaitBoom _
              (ex_intro _ schedSecondFirst eq_refl) eq_refl) as [H1 H2].
  split; [exact H1|]. split; [exact H2|]. split.
  - exact (proj1 (Hlog 2 closerY (errorString "disk full") eq_refl eq_refl)).
  - exact Hworld.
Defined.

Lemma New_registers_logger_first_witness :
  closers (freshApp quietLogger) = [adapterCloser quietLogger] /\
  closers (register (freshApp quietLogger)
             [RegClosers [closerX]; RegRunners [runnerOk]; RegClosers [closerY; closerZ]])
  = [adapterCloser quietLogger; closerX; closerY; closerZ] /\
  (Shutdown (register (freshApp quietLogger)
               [RegClosers [closerX]; RegRunners [runnerOk];
                RegClosers [closerY; closerZ]]) newContext []).1.2
  = ["logger closed"; "db closed"; "error: disk full"; "redis closed"].
Proof.
  destruct (New_registers_logger_first
              (fun _ : list unit => Ok sampleConfig) (fun _ => Ok quietLogger)
              true [] (freshApp quietLogger) eq_refl) as [H0 H].
  split; [exact H0|].
  destruct (H [RegClosers [closerX]; RegRunners [runnerOk];
               RegClosers [closerY; closerZ]] newContext [])
    as (_ & Hcl & _ & _ & Hworld).
  split; [exact Hcl|exact Hworld].
Defined.

(** C8 as stated fails: the list of closers of a fresh application holds
    the logger, and when the release of the logger fails [Shutdown] logs
    that error. *)
Lemma Shutdown_fresh_application_may_log :
  ~ (forall (config_New : list unit -> result Config)
            (log_New : list LogOption -> result (Adapter (World := Journal)))
            isDev cfgOpts a ctx w,
       New config_New log_New isDev cfgOpts = Ok a ->
       logged (Shutdown a ctx w).2 = []).
Proof.
  intros H.
  specialize (H (fun _ => Ok sampleConfig) (fun _ => Ok failingLogger)
                false [] (freshApp failingLogger) newContext [] eq_refl).
  discriminate H.
Qed.

Lemma fresh_application_runs_and_shuts_down_witness :
  (exists s, Run (freshApp quietLogger) [ActMain; ActMain] (start []) = Some s /\
     st_main s = Returned None /\ st_goroutines s = []) /\
  logged (Shutdown (freshApp quietLogger) newContext []).2 = [].
Proof.
  destruct (fresh_application_runs_and_shuts_down
              (fun _ : list unit => Ok sampleConfig) (fun _ => Ok quietLogger)
              true [] (freshApp quietLogger) eq_refl) as [Hrun Hshut].
  split.
  - exact (proj1 (Hrun [])).
  - exact (proj2 (proj2 (Hshut newContext [])) eq_refl).
Defined.

(** * More of the code *)

(** ** More on [parseConfigServiceHosts] and on [bootstrap] *)

Lemma parse_Ok_zip (cfg : ConfigServiceAddr) (arr : list string) :
  parseConfigServiceHosts cfg = Some (Ok arr) <->
  length (Split (IP cfg) ";") = length (Split (Port cfg) ";") /\
  arr = zip_with JoinHostPort (Split (IP cfg) ";") (Split (Port cfg) ";").
Proof.
  unfold parseConfigServiceHosts.
  destruct (Nat.eqb_spec (length (Split (IP cfg) ";"))
                         (length (Split (Port cfg) ";"))) as [Heq|Hne]; simpl.
  - rewrite hostsLoop_zip by lia. simpl. split.
    + by intros [= <-].
    + by intros [_ ->].
  - split; [done|]. by intros [? _].
Qed.

Lemma Count_app (s t : string) (sep : ascii) :
  Count (s +:+ t) sep = Count s sep + Count t sep.
Proof.
  induction s as [|c s IH]; [done|].
  change (Count (String c (s +:+ t)) sep = Count (String c s) sep + Count t sep).
  simpl. rewrite IH. lia.
Qed.

Lemma genSplit_app (sep : ascii) (s t cur : string) :
  genSplit sep (s +:+ String sep t) cur
  = genSplit sep s cur ++ genSplit sep t EmptyString.
Proof.
  revert cur. induction s as [|c s IH]; intros cur.
  - change (genSplit sep (String sep t) cur = [cur] ++ genSplit sep t "").
    simpl. by rewrite Ascii.eqb_refl.
  - change (genSplit sep (String c (s +:+ String sep t)) cur
            = genSplit sep (String c s) cur ++ genSplit sep t "").
    simpl. destruct (Ascii.eqb c sep); simpl; by rewrite IH.
Qed.

Lemma genSplit_no_sep (sep : ascii) (s cur : string) :
  Count cur sep = 0 ->
  Forall (fun seg => Count seg sep = 0) (genSplit sep s cur).
Proof.
  revert cur. induction s as [|c s IH]; intros cur Hcur; simpl.
  - by constructor.
  - destruct (Ascii.eqb c sep) eqn:Hc.
    + constructor; [done|]. by apply IH.
    + apply IH. rewrite Count_app. simpl. rewrite Hc. lia.
Qed.

(** X1.  When [parseConfigServiceHosts] succeeds, the list it returns is
    not empty, so the index expression [configServiceHosts[0]] of
    [bootstrap] is in range; the list has one address for each segment,
    that is one more than the IP field, and than the Port field, has
    semicolons. *)
Theorem parseConfigServiceHosts_nonempty (cfg : ConfigServiceAddr)
    (arr : list string) :
  parseConfigServiceHosts cfg = Some (Ok arr) ->
  is_Some (arr !! 0) /\
  length arr = S (Count (IP cfg) ";") /\
  length arr = S (Count (Port cfg) ";").
Proof.
  intros [Hlen ->]%parse_Ok_zip.
  assert (length (zip_with JoinHostPort (Split (IP cfg) ";")
                    (Split (Port cfg) ";")) = S (Count (IP cfg) ";")) as H.
  { rewrite length_zip_with, <- Hlen, Split_length. lia. }
  split; [apply lookup_lt_is_Some; lia|]. split; [done|].
  rewrite H. rewrite !Split_length in Hlen. lia.
Qed.

Lemma parseConfigServiceHosts_nonempty_witness :
  is_Some (["10.0.0.1:9001"; "cfg.local:9002"] !! 0).
Proof.
  exact (proj1 (parseConfigServiceHosts_nonempty
                  {| IP := "10.0.0.1;cfg.local"; Port := "9001;9002" |}
                  ["10.0.0.1:9001"; "cfg.local:9002"] eq_refl)).
Defined.

(** X2.  Parsing composes: when two addresses parse, the address whose
    IP field is the two IP fields with a semicolon between them, and
    likewise for the Port field, parses to the first list followed by the
    second. *)
Theorem parseConfigServiceHosts_append (ip1 ip2 port1 port2 : string)
    (arr1 arr2 : list string) :
  parseConfigServiceHosts {| IP := ip1; Port := port1 |} = Some (Ok arr1) ->
  parseConfigServiceHosts {| IP := ip2; Port := port2 |} = Some (Ok arr2) ->
  parseConfigServiceHosts {| IP := ip1 +:+ ";" +:+ ip2;
                             Port := port1 +:+ ";" +:+ port2 |}
  = Some (Ok (arr1 ++ arr2)).
Proof.
  intros [Hlen1 ->]%parse_Ok_zip [Hlen2 ->]%parse_Ok_zip. simpl in *.
  apply parse_Ok_zip. simpl. unfold Split in *.
  change (";" +:+ ip2) with (String ";" ip2).
  change (";" +:+ port2) with (String ";" port2).
  rewrite !genSplit_app. split.
  - rewrite !length_app. lia.
  - by rewrite zip_with_app.
Qed.

Lemma parseConfigServiceHosts_append_witness :
  parseConfigServiceHosts {| IP := "a" +:+ ";" +:+ "::1;c";
                             Port := "1" +:+ ";" +:+ "2;3" |}
  = Some (Ok (["a:1"] ++ ["[::1]:2"; "c:3"])).
Proof.
  exact (parseConfigServiceHosts_append "a" "::1;c" "1" "2;3"
           ["a:1"] ["[::1]:2"; "c:3"] eq_refl eq_refl).
Defined.

(** X3.  No address [parseConfigServiceHosts] returns holds a
    semicolon, and every one holds a colon. *)
Theorem parseConfigServiceHosts_no_semicolon (cfg : ConfigServiceAddr)
    (arr : list string) (addr : string) :
  parseConfigServiceHosts cfg = Some (Ok arr) -> addr ∈ arr ->
  Count addr ";" = 0 /\ 1 <= Count addr ":".
Proof.
  intros [Hlen ->]%parse_Ok_zip Hin.
  apply list_elem_of_lookup in Hin as [i Hi].
  apply lookup_zip_with_Some in Hi as (host & port & -> & Hh & Hp).
  assert (Count host ";" = 0) as Hhost.
  { pose proof (genSplit_no_sep ";" (IP cfg) "" eq_refl) as H.
    rewrite Forall_lookup in H. by apply (H i). }
  assert (Count port ";" = 0) as Hport.
  { pose proof (genSplit_no_sep ";" (Port cfg) "" eq_refl) as H.
    rewrite Forall_lookup in H. by apply (H i). }
  unfold JoinHostPort.
  destruct (0 <=? IndexByteString host ":")%Z;
    rewrite !Count_app, Hhost, Hport; simpl; lia.
Qed.

Lemma parseConfigServiceHosts_no_semicolon_witness :
  Count "[::1]:9000" ";" = 0 /\ 1 <= Count "[::1]:9000" ":".
Proof.
  apply (parseConfigServiceHosts_no_semicolon
           {| IP := "::1"; Port := "9000" |} ["[::1]:9000"] "[::1]:9000" eq_refl).
  apply list_elem_of_In. simpl. auto.
Defined.

Lemma parse_not_panic (cfg : ConfigServiceAddr) :
  is_Some (parseConfigServiceHosts cfg).
Proof.
  unfold parseConfigServiceHosts.
  destruct (Nat.eqb_spec (length (Split (IP cfg) ";"))
                         (length (Split (Port cfg) ";"))) as [Heq|Hne]; simpl.
  - rewrite hostsLoop_zip by lia. simpl. eauto.
  - eauto.
Qed.

Lemma parse_Err (cfg : ConfigServiceAddr) (e : error) :
  parseConfigServiceHosts cfg = Some (Err e) ->
  e = errorString "len(hosts) != len(ports)".
Proof.
  unfold parseConfigServiceHosts.
  destruct (negb _); simpl.
  - by intros [= <-].
  - by destruct (hostsLoop _ _ _ _).
Qed.

Lemma parse_Ok_first (cfg : ConfigServiceAddr) (arr : list string) :
  parseConfigServiceHosts cfg = Some (Ok arr) -> is_Some (arr !! 0).
Proof.
  intros [Hlen ->]%parse_Ok_zip. apply lookup_lt_is_Some.
  rewrite length_zip_with, <- Hlen, Split_length. lia.
Qed.

Lemma eqb_empty (s : string) : String.eqb s "" = true <-> s = "".
Proof. apply String.eqb_eq. Qed.

Section BootstrapFacts.
Context {World Endpoint RemoteConfigT Schema Client RemoteCfg : Type}.
Implicit Types (c : @Collab World Endpoint RemoteConfigT Schema Client RemoteCfg).
Implicit Types (cfg : LocalConfig) (app : Application (World := World)).

Lemma relativePathFromBin_Err c part e :
  relativePathFromBin c part = Err e <->
  exists e0, os_Executable c = Err e0 /\ e = withMessage e0 "get executable path".
Proof.
  unfold relativePathFromBin. destruct (os_Executable c) as [ex|e0].
  - split; [done|]. by intros (? & ? & _).
  - split.
    + intros [= <-]. eauto.
    + by intros (? & [= <-] & ->).
Qed.

(** X4.  [defaultRemoteConfigPath], [migrationsDirPath] and
    [configFilePath] return an error in one case only: the setting (the
    field of the local configuration, or the variable APP_CONFIG_PATH) is
    empty, the mode is not development, and [os.Executable] fails.  The
    error is then that of [os.Executable] under the message "get
    executable path". *)
Theorem path_resolvers_fail_iff c isDev cfg e :
  (defaultRemoteConfigPath c isDev cfg = Err e <->
   DefaultRemoteConfigPath cfg = "" /\ isDev = false /\
   exists e0, os_Executable c = Err e0 /\ e = withMessage e0 "get executable path") /\
  (migrationsDirPath c isDev cfg = Err e <->
   MigrationsDirPath cfg = "" /\ isDev = false /\
   exists e0, os_Executable c = Err e0 /\ e = withMessage e0 "get executable path") /\
  (configFilePath c isDev = Err e <->
   os_Getenv c "APP_CONFIG_PATH" = "" /\ isDev = false /\
   exists e0, os_Executable c = Err e0 /\ e = withMessage e0 "get executable path").
Proof.
  unfold defaultRemoteConfigPath, migrationsDirPath, configFilePath.
  split; [|split].
  - destruct (String.eqb_spec (DefaultRemoteConfigPath cfg) "") as [->|Hne];
      simpl; [|split; [done|by intros [? _]]].
    destruct isDev; [split; [done|by intros (_ & ? & _)]|].
    rewrite relativePathFromBin_Err. split; [by auto|]. by intros (_ & _ & H).
  - destruct (String.eqb_spec (MigrationsDirPath cfg) "") as [->|Hne];
      simpl; [|split; [done|by intros [? _]]].
    destruct isDev; [split; [done|by intros (_ & ? & _)]|].
    rewrite relativePathFromBin_Err. split; [by auto|]. by intros (_ & _ & H).
  - destruct (String.eqb_spec (os_Getenv c "APP_CONFIG_PATH") "") as [->|Hne];
      simpl; [|split; [done|by intros [? _]]].
    destruct isDev; [split; [done|by intros (_ & ? & _)]|].
    rewrite relativePathFromBin_Err. split; [by auto|]. by intros (_ & _ & H).
Qed.

(** X5.  [bootstrap] never panics: it returns a [Bootstrap] or an error
    for every input.  The index expression [configServiceHosts[0]] is
    reached only with a list that has a first element. *)
Theorem bootstrap_never_panics c isDev app moduleVersion
    (remoteConfig : RemoteConfigT) (endpoints : list Endpoint) :
  is_Some (bootstrap c isDev app moduleVersion remoteConfig endpoints).
Proof.
  unfold bootstrap.
  destruct (Config_Read c (cfg app)) as [lc|]; [|eauto].
  destruct (negb _); [eauto|].
  destruct (parse_not_panic (ConfigServiceAddress lc)) as [[hosts|e] Hp];
    rewrite Hp; [|eauto].
  destruct (parse_Ok_first _ _ Hp) as [target Ht]. rewrite Ht.
  destruct (String.eqb _ ""); simpl.
  - destruct (resolveHost c target); [|eauto].
    destruct (json_Marshal c _); [|eauto].
    destruct (readDefaultRemoteConfig c isDev lc); [|eauto].
    destruct (migrationsDirPath c isDev lc); eauto.
  - destruct (json_Marshal c _); [|eauto].
    destruct (readDefaultRemoteConfig c isDev lc); [|eauto].
    destruct (migrationsDirPath c isDev lc); eauto.
Qed.

(** X6.  What a successful [bootstrap] has checked and built.  The local
    configuration was read, its two gRPC ports are equal and its config
    service addresses parse.  The application is the one given.  The
    binding address is the inner IP joined with the port that is
    announced to the cluster.  The cluster client is built on all the
    parsed hosts, with the logger of the application, and announces the
    outer IP of the configuration, or, when that is empty, the local
    address [resolveHost] finds for the first config service host. *)
Theorem bootstrap_success c isDev app moduleVersion
    (remoteConfig : RemoteConfigT) (endpoints : list Endpoint) b :
  bootstrap c isDev app moduleVersion remoteConfig endpoints = Some (Ok b) ->
  exists lc hosts host schemaData defaultConfig,
    Config_Read c (cfg app) = Ok lc /\
    GrpcPort (GrpcInnerAddress lc) = GrpcPort (GrpcOuterAddress lc) /\
    parseConfigServiceHosts (ConfigServiceAddress lc) = Some (Ok hosts) /\
    (if String.eqb (GrpcIP (GrpcOuterAddress lc)) ""
     then exists target, hosts !! 0 = Some target /\ resolveHost c target = Ok host
     else host = GrpcIP (GrpcOuterAddress lc)) /\
    json_Marshal c (GenerateConfigSchema c remoteConfig) = Ok schemaData /\
    readDefaultRemoteConfig c isDev lc = Ok defaultConfig /\
    migrationsDirPath c isDev lc = Ok (MigrationsDir b) /\
    App b = app /\
    bs_ModuleName b = ModuleName lc /\
    RemoteConfig b = rc_New c (RemoteConfigOverride lc) /\
    BindingAddress b
    = JoinHostPort (GrpcIP (GrpcInnerAddress lc))
                   (Itoa (GrpcPort (GrpcOuterAddress lc))) /\
    ClusterCli b
    = cluster_NewClient c
        {| mi_ModuleName := ModuleName lc;
           mi_ModuleVersion := moduleVersion;
           mi_GrpcOuterAddress :=
             {| AddrIP := host;
                AddrPort := Itoa (GrpcPort (GrpcOuterAddress lc)) |};
           mi_Endpoints := endpoints |}
        {| cd_Version := moduleVersion; cd_Schema := schemaData;
           cd_Config := defaultConfig |}
        hosts (logger app).
Proof.
  unfold bootstrap.
  destruct (Config_Read c (cfg app)) as [lc|]; [|done].
  destruct (Z.eqb_spec (GrpcPort (GrpcInnerAddress lc))
                       (GrpcPort (GrpcOuterAddress lc))) as [Hport|]; [|done].
  simpl.
  destruct (parseConfigServiceHosts (ConfigServiceAddress lc))
    as [[hosts|]|] eqn:Hp; [|done..].
  destruct (String.eqb (GrpcIP (GrpcOuterAddress lc)) "") eqn:Hip.
  - destruct (hosts !! 0) as [target|] eqn:Ht; [|done].
    destruct (resolveHost c target) as [host|] eqn:Hres; [|done].
    destruct (json_Marshal c _) as [schemaData|] eqn:Hm; [|done].
    destruct (readDefaultRemoteConfig c isDev lc) as [dc|] eqn:Hd; [|done].
    destruct (migrationsDirPath c isDev lc) as [md|] eqn:Hmd; [|done].
    intros [= <-]. exists lc, hosts, host, schemaData, dc. simpl.
    rewrite Hip, Hport. repeat (split; [by eauto|]). done.
  - destruct (json_Marshal c _) as [schemaData|] eqn:Hm; [|done].
    destruct (readDefaultRemoteConfig c isDev lc) as [dc|] eqn:Hd; [|done].
    destruct (migrationsDirPath c isDev lc) as [md|] eqn:Hmd; [|done].
    intros [= <-]. exists lc, hosts, (GrpcIP (GrpcOuterAddress lc)), schemaData, dc.
    simpl. rewrite Hip, Hport. repeat (split; [by eauto|]). done.
Qed.

(** X7.  When the local configuration gives an outer IP, [bootstrap]
    does not depend on [net.Dial]: with any other dialler the result is
    the same. *)
Theorem bootstrap_ignores_dial c dial isDev app moduleVersion
    (remoteConfig : RemoteConfigT) (endpoints : list Endpoint) lc :
  Config_Read c (cfg app) = Ok lc ->
  GrpcIP (GrpcOuterAddress lc) <> "" ->
  bootstrap (withDial c dial) isDev app moduleVersion remoteConfig endpoints
  = bootstrap c isDev app moduleVersion remoteConfig endpoints.
Proof.
  intros Hread Hip. unfold bootstrap. simpl. rewrite Hread.
  destruct (String.eqb_spec (GrpcIP (GrpcOuterAddress lc)) ""); [done|].
  reflexivity.
Qed.

(** X8.  In development mode, and also when the local configuration
    gives both the default remote configuration path and the migrations
    directory, [bootstrap] does not depend on [os.Executable]. *)
Theorem bootstrap_ignores_executable c exe isDev app moduleVersion
    (remoteConfig : RemoteConfigT) (endpoints : list Endpoint) lc :
  Config_Read c (cfg app) = Ok lc ->
  isDev = true \/
  (DefaultRemoteConfigPath lc <> "" /\ MigrationsDirPath lc <> "") ->
  bootstrap (withExecutable c exe) isDev app moduleVersion remoteConfig endpoints
  = bootstrap c isDev app moduleVersion remoteConfig endpoints.
Proof.
  intros Hread Hcase. unfold bootstrap. simpl. rewrite Hread.
  assert (readDefaultRemoteConfig (withExecutable c exe) isDev lc
          = readDefaultRemoteConfig c isDev lc) as ->.
  { unfold readDefaultRemoteConfig, defaultRemoteConfigPath. simpl.
    destruct (String.eqb_spec (DefaultRemoteConfigPath lc) ""); simpl; [|done].
    destruct Hcase as [->|[? _]]; done. }
  assert (migrationsDirPath (withExecutable c exe) isDev lc
          = migrationsDirPath c isDev lc) as ->.
  { unfold migrationsDirPath. simpl.
    destruct (String.eqb_spec (MigrationsDirPath lc) ""); simpl; [|done].
    destruct Hcase as [->|[_ ?]]; done. }
  reflexivity.
Qed.
End BootstrapFacts.

Section AppFacts.
Context {World : Type}.
Implicit Types (a : Application (World := World)) (lg : Adapter (World := World)).
Implicit Types (cs : list (Closer (World := World))) (w : World) (ctx : Context).
Implicit Types (rs : list (Runner (World := World))) (s : State (World := World)).
Implicit Types (regs : list (Registration (World := World))).

(** X10.  The errors of [New].  It fails either because [config.New]
    failed, and the error is that one under "create config", whatever
    [log.New] would do; or because [log.New] failed on the options [New]
    built, and the error is that one under "create logger".  The message
    is the added text, a colon and a space, then the message of the
    cause. *)
Theorem New_errors {ConfigOption : Type}
    (config_New : list ConfigOption -> result Config)
    (log_New : list LogOption -> result (Adapter (World := World)))
    isDev cfgOpts e :
  New config_New log_New isDev cfgOpts = Err e ->
  (exists e0,
     config_New cfgOpts = Err e0 /\
     e = withMessage e0 "create config" /\
     Error e = "create config: " +:+ Error e0 /\
     forall log_New' : list LogOption -> result (Adapter (World := World)),
       New config_New log_New' isDev cfgOpts = Err e) \/
  (exists cfg0 opts e0,
     config_New cfgOpts = Ok cfg0 /\ log_New opts = Err e0 /\
     e = withMessage e0 "create logger" /\
     Error e = "create logger: " +:+ Error e0).
Proof.
  unfold New. destruct (config_New cfgOpts) as [cfg0|e0] eqn:Hc.
  - destruct (log_New _) as [lg|e1] eqn:Hl; [done|].
    intros [= <-]. right. by eexists cfg0, _, e1.
  - intros [= <-]. left. exists e0. repeat split; try done.
Qed.

(** X11.  The logger [New] returns was built by [log.New] from these
    options.  In development mode: development mode and the debug level,
    whatever the configuration says.  Otherwise: never development mode,
    the info level and no other level, and a file rotation exactly when
    LOGFILE.PATH is set, with 512 megabytes, 4 backups and compression
    for defaults and no limit in days. *)
Theorem New_logger_options {ConfigOption : Type}
    (config_New : list ConfigOption -> result Config)
    (log_New : list LogOption -> result Adapter)
    isDev cfgOpts a :
  New config_New log_New isDev cfgOpts = Ok a ->
  exists opts,
    config_New cfgOpts = Ok (cfg a) /\ log_New opts = Ok (logger a) /\
    (isDev = true -> opts = [WithDevelopmentMode; WithLevel DebugLevel]) /\
    (isDev = false ->
     (WithDevelopmentMode ∉ opts) /\
     (forall l, WithLevel l ∈ opts -> l = InfoLevel) /\
     (OptionalString (cfg a) "LOGFILE.PATH" "" = "" ->
      opts = [WithLevel InfoLevel]) /\
     (OptionalString (cfg a) "LOGFILE.PATH" "" <> "" ->
      opts = [WithLevel InfoLevel;
              WithFileRotation
                {| File := OptionalString (cfg a) "LOGFILE.PATH" "";
                   MaxSizeMb := OptionalInt (cfg a) "LOGFILE.MAXSIZEMB" 512;
                   MaxDays := 0;
                   MaxBackups := OptionalInt (cfg a) "LOGFILE.MAXBACKUPS" 4;
                   Compress := OptionalBool (cfg a) "LOGFILE.COMPRESS" true |}])).
Proof.
  unfold New. destruct (config_New cfgOpts) as [cfg0|e0] eqn:Hc; [|done].
  destruct (log_New _) as [lg|e1] eqn:Hl; [|done].
  intros [= <-]. simpl. eexists. split; [done|]. split; [exact Hl|].
  destruct isDev; simpl; [by split|]. split; [done|]. intros _.
  destruct (String.eqb_spec (OptionalString cfg0 "LOGFILE.PATH" "") "")
    as [Hp|Hp]; simpl.
  - split; [|split; [|done]].
    + rewrite list_elem_of_singleton. done.
    + intros l. rewrite list_elem_of_singleton. by intros [= ->].
  - split; [|split; [|done]].
    + rewrite !elem_of_cons. intros [?|[?|?%elem_of_nil]]; done.
    + intros l. rewrite !elem_of_cons.
      intros [[= ->]|[?|?%elem_of_nil]]; done.
Qed.

Lemma register_runners a regs :
  runners (register a regs) = runners a ++ registeredRunners regs.
Proof.
  revert a. induction regs as [|[rs|cs] regs IH]; intros a; simpl.
  - by rewrite app_nil_r.
  - rewrite IH. simpl. by rewrite app_assoc.
  - by rewrite IH.
Qed.

Lemma register_cfg a regs : cfg (register a regs) = cfg a.
Proof.
  revert a. induction regs as [|[rs|cs] regs IH]; intros a; simpl; [done|..];
    by rewrite IH.
Qed.

(** X12.  After any calls of [AddRunners] and [AddClosers], the runners
    are the former runners followed by the registered ones in the order
    of the calls, the same for the closers, and neither list depends on
    the calls for the other; the configuration and the logger are
    untouched; two composition phases in a row are one. *)
Theorem register_lists a regs regs' :
  runners (register a regs) = runners a ++ registeredRunners regs /\
  closers (register a regs) = closers a ++ registeredClosers regs /\
  cfg (register a regs) = cfg a /\
  logger (register a regs) = logger a /\
  register (register a regs) regs' = register a (regs ++ regs').
Proof.
  split; [apply register_runners|]. split; [apply register_closers|].
  split; [apply register_cfg|]. split; [apply register_logger|].
  unfold register. by rewrite foldl_app.
Qed.

Lemma closeLoop_logged lg ctx cs i w :
  logged (closeLoop lg ctx cs i w).2 = closeFailures (closeLoop lg ctx cs i w).2 /\
  length (logged (closeLoop lg ctx cs i w).2) <= length cs.
Proof.
  revert i w. induction cs as [|closer cs IH]; intros i w;
    [simpl; split; [done|lia]|].
  rewrite closeLoop_cons.
  destruct (Closer_Close closer w).2 as [e|]; simpl.
  - destruct (IH (S i) (Adapter_Error lg (Closer_Close closer w).1 ctx e
                          [("closer", closerType closer)])) as [-> Hle].
    split; [done|lia].
  - destruct (IH (S i) (Closer_Close closer w).1) as [-> Hle].
    split; [done|lia].
Qed.
End AppFacts.

Section AppFacts2.
Context {World : Type}.
Implicit Types (a : Application (World := World)) (lg : Adapter (World := World)).
Implicit Types (cs : list (Closer (World := World))) (w : World) (ctx : Context).
Implicit Types (rs : list (Runner (World := World))) (s : State (World := World)).
Implicit Types (h : list (nat * option error)).

Lemma releaseTurn_all_nil lg ctx cs w :
  (forall i c, cs !! i = Some c ->
     (Closer_Close c (worldAt lg ctx cs i w)).2 = None) ->
  omap failureEntry
    (imap (fun i c => (c, (Closer_Close c (worldAt lg ctx cs i w)).2)) cs) = [] /\
  foldl (fun w' c => releaseTurn lg ctx c w') w cs
  = foldl (fun w' c => (Closer_Close c w').1) w cs.
Proof.
  revert w. induction cs as [|closer cs IH]; intros w Hnil; [done|].
  pose proof (Hnil 0 closer eq_refl) as H0. rewrite worldAt_0 in H0.
  assert (releaseTurn lg ctx closer w = (Closer_Close closer w).1) as Hturn.
  { rewrite releaseTurn_cases. by rewrite H0. }
  destruct (IH (Closer_Close closer w).1) as [IH1 IH2].
  { intros i c Hi. specialize (Hnil (S i) c Hi).
    by rewrite worldAt_cons, Hturn in Hnil. }
  split.
  - simpl. rewrite worldAt_0. unfold failureEntry at 1. simpl. rewrite H0.
    rewrite <- IH1. f_equal. apply imap_ext. intros i c _. simpl.
    by rewrite worldAt_cons, Hturn.
  - simpl. by rewrite Hturn.
Qed.

Lemma cancel_AllDone ctx : cancel ctx = AllDone.
Proof. by destruct ctx. Qed.

(** X13.  [Shutdown] hands to the logger the errors of the failed
    release calls, with the type of the closer, in the order of the
    calls, and nothing else; so it logs at most one error for each
    closer.  What is handed is what each release returned in the world it
    was called in; the world changes by [Error] of the logger after a
    release that failed and after no other; and when no release fails the
    logger is not called at all: the world [Shutdown] leaves is the one
    the release calls alone make. *)
Theorem Shutdown_logs_exactly_failures a ctx w :
  logged (Shutdown a ctx w).2 = closeFailures (Shutdown a ctx w).2 /\
  length (logged (Shutdown a ctx w).2) <= length (closers a) /\
  logged (Shutdown a ctx w).2
  = omap failureEntry
      (imap (fun i c =>
               (c, (Closer_Close c
                      (worldAt (logger a) (cancel ctx) (closers a) i w)).2))
            (closers a)) /\
  (forall i c,
     closers a !! i = Some c ->
     worldAt (logger a) (cancel ctx) (closers a) (S i) w
     = match (Closer_Close c
                (worldAt (logger a) (cancel ctx) (closers a) i w)).2 with
       | Some e =>
           Adapter_Error (logger a)
             (Closer_Close c
                (worldAt (logger a) (cancel ctx) (closers a) i w)).1
             (cancel ctx) e [("closer", closerType c)]
       | None =>
           (Closer_Close c
              (worldAt (logger a) (cancel ctx) (closers a) i w)).1
       end) /\
  (Shutdown a ctx w).1.2
  = worldAt (logger a) (cancel ctx) (closers a) (length (closers a)) w /\
  ((forall i c,
      closers a !! i = Some c ->
      (Closer_Close c (worldAt (logger a) (cancel ctx) (closers a) i w)).2
      = None) ->
   logged (Shutdown a ctx w).2 = [] /\
   (Shutdown a ctx w).1.2
   = foldl (fun w' c => (Closer_Close c w').1) w (closers a)).
Proof.
  split; [rewrite Shutdown_unfold; simpl; apply closeLoop_logged|].
  split; [rewrite Shutdown_unfold; simpl; apply closeLoop_logged|].
  split; [rewrite Shutdown_unfold; simpl; apply closeLoop_logged_results|].
  split.
  { intros i c Hi. rewrite (worldAt_S _ _ _ _ _ _ Hi). apply releaseTurn_cases. }
  split; [apply Shutdown_world|].
  intros Hnil. rewrite Shutdown_world, worldAt_all, Shutdown_unfold. simpl.
  rewrite closeLoop_logged_results.
  by apply releaseTurn_all_nil.
Qed.

(** X14.  [Shutdown] is not guarded against a second call: the second
    call makes the same release calls again, so every closer is released
    twice, while the context stays cancelled.  The second release of each
    closer is called in the world the first call and the turns before it
    left, and the second call leaves the world that the turns of all the
    closers, taken twice over, make of the first world. *)
Theorem Shutdown_twice a ctx w :
  let first := Shutdown a ctx w in
  let second := Shutdown a first.1.1 first.1.2 in
  first.1.1 = AllDone /\
  second.1.1 = AllDone /\
  closeCalls second.2 = closeCalls first.2 /\
  closeCalls (first.2 ++ second.2)
  = imap (fun i c => (i, c)) (closers a) ++ imap (fun i c => (i, c)) (closers a) /\
  closeResults second.2
  = imap (fun i c =>
            (i, c,
             (Closer_Close c
                (worldAt (logger a) AllDone (closers a) i first.1.2)).2))
         (closers a) /\
  second.1.2
  = foldl (fun w' c => releaseTurn (logger a) AllDone c w') w
          (closers a ++ closers a).
Proof.
  intros first second. unfold second, first.
  assert (forall w0, (Shutdown a AllDone w0).2
                     = EvCancel :: (closeLoop (logger a) AllDone (closers a) 0 w0).2)
    as Hev by (intros w0; by rewrite Shutdown_unfold).
  assert ((Shutdown a ctx w).1.1 = AllDone) as Hc1.
  { rewrite Shutdown_unfold. simpl. apply cancel_AllDone. }
  rewrite Hc1. split; [done|].
  split; [by rewrite Shutdown_unfold|].
  assert (forall evs1 evs2 : list (Event (World := World)),
            closeCalls (evs1 ++ evs2) = closeCalls evs1 ++ closeCalls evs2) as Happ.
  { induction evs1 as [|[|i c e|e f] evs1 IH]; intros evs2; simpl;
      by rewrite ?IH. }
  assert (forall c0 w0, closeCalls (Shutdown a c0 w0).2
                        = imap (fun i c => (i, c)) (closers a)) as Hcalls.
  { intros c0 w0. rewrite Shutdown_unfold. simpl. apply closeLoop_closeCalls. }
  split; [by rewrite !Hcalls|]. split; [by rewrite Happ, !Hcalls|].
  split.
  - rewrite Hev. simpl. apply closeLoop_results.
  - rewrite (Shutdown_world a AllDone), worldAt_all, foldl_app.
    rewrite (Shutdown_world a ctx), worldAt_all. by rewrite !cancel_AllDone.
Qed.

Lemma closeLoop_app lg ctx cs1 cs2 i w :
  closeLoop lg ctx (cs1 ++ cs2) i w
  = ((closeLoop lg ctx cs2 (i + length cs1) (closeLoop lg ctx cs1 i w).1).1,
     (closeLoop lg ctx cs1 i w).2
       ++ (closeLoop lg ctx cs2 (i + length cs1) (closeLoop lg ctx cs1 i w).1).2).
Proof.
  revert i w. induction cs1 as [|closer cs1 IH]; intros i w.
  - simpl. rewrite Nat.add_0_r. by destruct (closeLoop lg ctx cs2 i w).
  - rewrite <- app_comm_cons, !closeLoop_cons.
    destruct (Closer_Close closer w).2 as [e|]; simpl; rewrite IH; simpl;
      by replace (i + S (length cs1)) with (S i + length cs1) by lia.
Qed.

(** X15.  Closers registered later do not change what [Shutdown] does
    with the earlier ones: [Shutdown] on the longer list is [Shutdown] on
    the shorter one, followed by the loop over the added closers from the
    next index, in the world the first part left. *)
Theorem Shutdown_AddClosers a cs ctx w :
  let before := Shutdown a ctx w in
  let rest := closeLoop (logger a) before.1.1 cs (length (closers a)) before.1.2 in
  Shutdown (AddClosers a cs) ctx w = (before.1.1, rest.1, before.2 ++ rest.2).
Proof.
  intros before rest. unfold rest, before. rewrite !Shutdown_unfold. simpl.
  by rewrite closeLoop_app.
Qed.

(** *** [Run] *)

Lemma step_err_stable rs act s s' e :
  Inv rs s -> step rs act s = Some s' ->
  err (st_group s) = Some e -> err (st_group s') = Some e.
Proof.
  intros HI. destruct act as [|i|]; simpl.
  - unfold stepMain. destruct (st_main s) as [i| |ret]; [| |done].
    + destruct (rs !! i); by intros [= <-].
    + destruct (forallb isExited (st_goroutines s)); by intros [= <-].
  - unfold stepGo.
    destruct (st_goroutines s !! i) as [[|ret|]|]; try done.
    + destruct (rs !! i) as [runner|]; intros [= <-]. unfold runRunner.
      by destruct (Runner_Run runner (st_world s) _) as [w' [ret|]].
    + intros [= <-] He. unfold recordResult.
      destruct ret as [e1|]; [|done]. unfold errOnceDo.
      rewrite (inv_once _ _ HI), He. done.
  - by intros [= <-].
Qed.

Lemma exec_err_stable rs sched s s' e :
  Inv rs s -> exec rs sched s = Some s' ->
  err (st_group s) = Some e -> err (st_group s') = Some e.
Proof.
  revert s. induction sched as [|act sched IH]; intros s HI; simpl.
  - by intros [= <-].
  - destruct (step rs act s) as [s1|] eqn:Hstep; [|done].
    intros Hex He. apply (IH s1); [by eapply step_inv|done|].
    by eapply step_err_stable.
Qed.

(** X16.  The error the group has recorded never changes: whatever
    happens after, failures of other runners or cancellation, it stays,
    and it is what [Run] returns. *)
Theorem Run_first_error_is_final a w s sched s' e :
  reachable a w s -> exec (runners a) sched s = Some s' ->
  err (st_group s) = Some e ->
  err (st_group s') = Some e /\
  forall ret, st_main s' = Returned ret -> ret = Some e.
Proof.
  intros HI%reachable_inv Hex He.
  pose proof (exec_err_stable _ _ _ _ _ HI Hex He) as He'.
  split; [done|]. intros ret Hm.
  pose proof (inv_main _ _ (exec_inv _ _ _ _ HI Hex)) as Hmain.
  rewrite Hm in Hmain. destruct Hmain as (_ & _ & -> & _). done.
Qed.

Lemma NoDup_bounded_length (l : list nat) (n : nat) :
  NoDup l -> (forall i, i ∈ l -> i < n) -> length l <= n.
Proof.
  intros Hnd Hb.
  rewrite <- (length_seq n 0). apply submseteq_length, NoDup_submseteq; [done|].
  intros i Hi. apply elem_of_seq. specialize (Hb i Hi). lia.
Qed.

Lemma inv_goroutines_le rs s : Inv rs s -> length (st_goroutines s) <= length rs.
Proof.
  intros HI. pose proof (inv_main _ _ HI) as H.
  destruct (st_main s); [lia|lia|]. destruct H as [-> _]. lia.
Qed.

(** X17.  In every state [Run] can reach there are at most as many
    goroutines as runners; no runner has returned twice and no result has
    reached the group twice; a result that reached the group was returned
    by a runner before; and only started runners have returned. *)
Theorem Run_each_runner_once a w s :
  reachable a w s ->
  length (st_goroutines s) <= length (runners a) /\
  NoDup (st_returns s).*1 /\
  NoDup (st_arrivals s).*1 /\
  (forall i, i ∈ (st_arrivals s).*1 -> i ∈ (st_returns s).*1) /\
  (forall i, i ∈ (st_returns s).*1 -> i < length (st_goroutines s)) /\
  length (st_arrivals s) <= length (st_returns s) /\
  length (st_returns s) <= length (runners a).
Proof.
  intros HI%reachable_inv.
  pose proof (inv_goroutines_le _ _ HI) as Hle.
  assert (forall i, i ∈ (st_arrivals s).*1 -> i ∈ (st_returns s).*1) as Hsub.
  { intros i ([j r'] & -> & Hin)%list_elem_of_fmap.
    destruct (inv_arrived _ _ HI _ _ Hin) as (runner & r & _ & Hret & _).
    apply list_elem_of_fmap. by exists (j, r). }
  assert (forall i, i ∈ (st_returns s).*1 -> i < length (st_goroutines s)) as Hb.
  { intros i ([j r] & -> & Hin)%list_elem_of_fmap. simpl.
    destruct (inv_returned _ _ HI _ _ Hin) as (runner & _ & [Hf|Ha]).
    - by apply lookup_lt_Some in Hf.
    - assert (j ∈ (st_arrivals s).*1) as Hj.
      { apply list_elem_of_fmap. by exists (j, wrapRunnerErr runner r). }
      apply (inv_exited _ _ HI) in Hj. by apply lookup_lt_Some in Hj. }
  split; [done|]. split; [apply (inv_returns_nodup _ _ HI)|].
  split; [apply (inv_arrivals_nodup _ _ HI)|]. split; [done|]. split; [done|].
  split.
  - rewrite <- (length_fmap fst (st_arrivals s)), <- (length_fmap fst (st_returns s)).
    apply submseteq_length, NoDup_submseteq; [apply (inv_arrivals_nodup _ _ HI)|done].
  - rewrite <- (length_fmap fst (st_returns s)).
    apply NoDup_bounded_length; [apply (inv_returns_nodup _ _ HI)|].
    intros i Hi. specialize (Hb i Hi). lia.
Qed.

(** X18.  [Run] returns an error only when some registered runner
    returned one: the error is what a call of that runner returned,
    wrapped with the type of that runner.  Cancellation alone never makes
    [Run] return an error. *)
Theorem Run_error_comes_from_a_runner a w s e :
  reachable a w s -> st_main s = Returned (Some e) ->
  exists i runner e0 w' d,
    runners a !! i = Some runner /\
    (Runner_Run runner w' d).2 = Some (Some e0) /\
    (i, Some e0) ∈ st_returns s /\
    e = withMessage e0 ("start runner[" +:+ runnerType runner +:+ "]") /\
    Error e = "start runner[" +:+ runnerType runner +:+ "]: " +:+ Error e0.
Proof.
  intros HI%reachable_inv Hm.
  pose proof (inv_main _ _ HI) as Hmain. rewrite Hm in Hmain.
  destruct Hmain as (_ & _ & He & _). rewrite (inv_latch _ _ HI) in He.
  symmetry in He.
  destruct (firstError_split _ _ He) as (pre & i & post & Hsplit & _).
  assert ((i, Some e) ∈ st_arrivals s) as Hin.
  { rewrite Hsplit, elem_of_app, elem_of_cons. auto. }
  destruct (inv_arrived _ _ HI _ _ Hin) as (runner & r & Hr & Hret & Hw).
  destruct r as [e0|]; [|done]. injection Hw as ->.
  destruct (inv_returns_real _ _ HI _ _ Hret) as (runner' & w' & d & Hr' & Hcall).
  assert (runner' = runner) as -> by congruence.
  exists i, runner, e0, w', d. repeat (split; [done|]).
  simpl. by rewrite !append_assoc.
Qed.

(** *** Cooperative runners *)

Lemma progress_done rs s :
  Inv rs s -> cooperative rs -> done (st_ctx s) = true ->
  (forall ret, st_main s <> Returned ret) ->
  exists act s', act <> ActCancel /\ step rs act s = Some s' /\
    measure rs s' < measure rs s.
Proof.
  intros HI Hp Hd Hm. pose proof (inv_main _ _ HI) as Hmain.
  destruct (st_main s) as [i| |ret] eqn:Hpc; [| |by destruct (Hm ret)].
  - exists ActMain. simpl. unfold stepMain. rewrite Hpc.
    destruct (rs !! i) as [runner|] eqn:Hr; eexists; (split; [done|]);
      (split; [done|]); unfold measure; simpl; rewrite Hpc.
    + apply lookup_lt_Some in Hr. rewrite weight_snoc. simpl. lia.
    + lia.
  - destruct (forallb isExited (st_goroutines s)) eqn:Hall.
    + exists ActMain. simpl. unfold stepMain. rewrite Hpc, Hall.
      eexists; split; [done|]. split; [done|].
      unfold measure; simpl. rewrite Hpc. lia.
    + destruct (find_not_exited _ Hall) as (i & g & Hg & Hne).
      exists (ActGo i). simpl. unfold stepGo. rewrite Hg.
      destruct g as [|ret|]; [| |done].
      * destruct (lookup_lt_is_Some_2 rs i) as [runner Hr].
        { apply lookup_lt_Some in Hg. lia. }
        rewrite Hr, Hd. eexists; split; [done|]. split; [done|].
        destruct (Hp runner (st_world s)) as [ret Hret].
        { apply list_elem_of_lookup. eauto. }
        unfold runRunner.
        destruct (Runner_Run runner (st_world s) true) as [w' r].
        simpl in Hret. subst r.
        unfold measure; simpl. rewrite Hpc.
        pose proof (weight_insert _ _ _ (Finished (wrapRunnerErr runner ret)) Hg).
        simpl in *. lia.
      * eexists; split; [done|]. split; [done|]. unfold recordResult.
        destruct (match ret with Some e => _ | None => _ end) as [g c].
        unfold measure; simpl. rewrite Hpc.
        pose proof (weight_insert _ _ _ Exited Hg). simpl in *. lia.
Qed.

Lemma completes_done rs s :
  Inv rs s -> cooperative rs -> done (st_ctx s) = true ->
  exists sched s' ret,
    (ActCancel ∉ sched) /\ length sched <= measure rs s /\
    exec rs sched s = Some s' /\ st_main s' = Returned ret.
Proof.
  intros HI Hp. remember (measure rs s) as n eqn:Hn.
  revert s HI Hn. induction (lt_wf n) as [n _ IH]. intros s HI -> Hd.
  destruct (st_main s) as [i| |ret] eqn:Hpc.
  3: { exists [], s, ret. split; [apply not_elem_of_nil|].
       split; [simpl; lia|done]. }
  all: destruct (progress_done rs s HI Hp Hd) as (act & s1 & Hact & Hstep & Hlt);
    [by rewrite Hpc|];
    destruct (IH _ Hlt s1 (step_inv _ _ _ _ HI Hstep) eq_refl
                (step_done _ _ _ _ Hstep Hd))
      as (sched & s' & ret & Hnc & Hlen & Hex & Hret);
    exists (act :: sched), s', ret;
    (split; [rewrite not_elem_of_cons; by split|]);
    (split; [simpl; lia|]); simpl; by rewrite Hstep.
Qed.

(** X19.  When every runner returns once it finds the context done:
    from every reachable state where the context is done, [Run] returns
    within a number of steps bounded by the measure, without any further
    cancellation; so from every reachable state a call of [a.cancel], as
    in [Shutdown], makes it possible for [Run] to return. *)
Theorem Run_returns_once_cancelled a w s :
  reachable a w s -> cooperative (runners a) ->
  (done (st_ctx s) = true ->
   exists sched s' ret,
     (ActCancel ∉ sched) /\ length sched <= measure (runners a) s /\
     exec (runners a) sched s = Some s' /\ st_main s' = Returned ret) /\
  (exists sched s' ret,
     exec (runners a) (ActCancel :: sched) s = Some s' /\
     st_main s' = Returned ret).
Proof.
  intros Hreach Hp. pose proof (reachable_inv _ _ _ Hreach) as HI. split.
  - by apply completes_done.
  - assert (step (runners a) ActCancel s
            = Some {| st_ctx := cancel (st_ctx s); st_world := st_world s;
                      st_group := st_group s; st_goroutines := st_goroutines s;
                      st_main := st_main s; st_returns := st_returns s;
                      st_arrivals := st_arrivals s |}) as Hstep by done.
    destruct (completes_done (runners a) _ (step_inv _ _ _ _ HI Hstep) Hp)
      as (sched & s' & ret & _ & _ & Hex & Hret).
    { simpl. apply cancel_done. }
    exists sched, s', ret. simpl. done.
Qed.
End AppFacts2.

Lemma parse_Err_counts (cfg : ConfigServiceAddr) (e : error) :
  parseConfigServiceHosts cfg = Some (Err e) ->
  e = errorString "len(hosts) != len(ports)" /\
  Count (IP cfg) ";" <> Count (Port cfg) ";".
Proof.
  unfold parseConfigServiceHosts.
  destruct (Nat.eqb_spec (length (Split (IP cfg) ";"))
                         (length (Split (Port cfg) ";"))) as [Heq|Hne]; simpl.
  - by destruct (hostsLoop _ _ _ _).
  - intros [= <-]. split; [done|]. rewrite !Split_length in Hne. lia.
Qed.

Section BootstrapErrors.
Context {World Endpoint RemoteConfigT Schema Client RemoteCfg : Type}.
Implicit Types (c : @Collab World Endpoint RemoteConfigT Schema Client RemoteCfg).
Implicit Types (cfg : LocalConfig) (app : Application (World := World)).

Lemma readDefaultRemoteConfig_Err c isDev lc e1 :
  readDefaultRemoteConfig c isDev lc = Err e1 ->
  exists e0 msg,
    e1 = withMessage e0 msg /\
    msg ∈ ["resolve path"; "read file"; "unmarshal json"].
Proof.
  unfold readDefaultRemoteConfig.
  destruct (defaultRemoteConfigPath c isDev lc) as [path|e0].
  - destruct (os_ReadFile c path) as [data|e0].
    + destruct (json_Unmarshal c data) as [r|e0]; [done|].
      intros [= <-]. eexists _, _. split; [done|].
      rewrite !elem_of_cons. auto.
    + intros [= <-]. eexists _, _. split; [done|].
      rewrite !elem_of_cons. auto.
  - intros [= <-]. eexists _, _. split; [done|].
    rewrite !elem_of_cons. auto.
Qed.

(** X9.  The errors of [bootstrap].  An error it returns is the error
    of reading the local configuration under "read local config"; or,
    the configuration being read, the fixed message about unequal ports;
    or the length error of [parseConfigServiceHosts] under "parse config
    service hosts", the two fields having different numbers of
    semicolons; or, with an empty outer IP, the error of [net.Dial] under
    "resolve local host"; or the error of marshalling under "marshal
    schema"; or an error of [readDefaultRemoteConfig], itself under one
    of "resolve path", "read file", "unmarshal json", under "read default
    remote config"; or, outside development mode with no migrations
    directory set, the error of [os.Executable] under "get executable
    path" under "resolve migrations dir path". *)
Theorem bootstrap_errors c isDev app moduleVersion
    (remoteConfig : RemoteConfigT) (endpoints : list Endpoint) e :
  bootstrap c isDev app moduleVersion remoteConfig endpoints = Some (Err e) ->
  (exists e0,
     Config_Read c (cfg app) = Err e0 /\ e = withMessage e0 "read local config") \/
  (exists lc,
     Config_Read c (cfg app) = Ok lc /\
     ((GrpcPort (GrpcInnerAddress lc) <> GrpcPort (GrpcOuterAddress lc) /\
       e = errorString
             "grpcInnerAddress.port is not equal grpcOuterAddress.port. potential mistake") \/
      (Count (IP (ConfigServiceAddress lc)) ";"
       <> Count (Port (ConfigServiceAddress lc)) ";" /\
       e = withMessage (errorString "len(hosts) != len(ports)")
                       "parse config service hosts") \/
      (GrpcIP (GrpcOuterAddress lc) = "" /\
       exists target e0,
         net_Dial c "udp" target = Err e0 /\
         e = withMessage e0 "resolve local host") \/
      (exists e0,
         json_Marshal c (GenerateConfigSchema c remoteConfig) = Err e0 /\
         e = withMessage e0 "marshal schema") \/
      (exists e0 msg,
         readDefaultRemoteConfig c isDev lc = Err (withMessage e0 msg) /\
         msg ∈ ["resolve path"; "read file"; "unmarshal json"] /\
         e = withMessage (withMessage e0 msg) "read default remote config") \/
      (isDev = false /\ MigrationsDirPath lc = "" /\
       exists e0,
         os_Executable c = Err e0 /\
         e = withMessage (withMessage e0 "get executable path")
                         "resolve migrations dir path"))).
Proof.
  unfold bootstrap.
  destruct (Config_Read c (cfg app)) as [lc|e0] eqn:Hread;
    [|intros [= <-]; left; eauto].
  intros H. right. exists lc. split; [done|]. revert H.
  destruct (Z.eqb_spec (GrpcPort (GrpcInnerAddress lc))
                       (GrpcPort (GrpcOuterAddress lc))) as [Hport|Hport]; simpl;
    [|intros [= <-]; left; done].
  destruct (parseConfigServiceHosts (ConfigServiceAddress lc))
    as [[hosts|e0]|] eqn:Hp; [| |done].
  2: { intros [= <-]. right; left.
       destruct (parse_Err_counts _ _ Hp) as [-> Hne]. done. }
  assert (forall host,
    match json_Marshal c (GenerateConfigSchema c remoteConfig) with
    | Err err => Some (Err (withMessage err "marshal schema"))
    | Ok schemaData =>
        match readDefaultRemoteConfig c isDev lc with
        | Err err => Some (Err (withMessage err "read default remote config"))
        | Ok defaultConfig =>
            match migrationsDirPath c isDev lc with
            | Err err => Some (Err (withMessage err "resolve migrations dir path"))
            | Ok migrationsDir =>
                Some (Ok {| App := app;
                            ClusterCli :=
                              cluster_NewClient c
                                {| mi_ModuleName := ModuleName lc;
                                   mi_ModuleVersion := moduleVersion;
                                   mi_GrpcOuterAddress :=
                                     {| AddrIP := host;
                                        AddrPort :=
                                          Itoa (GrpcPort (GrpcOuterAddress lc)) |};
                                   mi_Endpoints := endpoints |}
                                {| cd_Version := moduleVersion;
                                   cd_Schema := schemaData;
                                   cd_Config := defaultConfig |}
                                hosts (logger app);
                            RemoteConfig := rc_New c (RemoteConfigOverride lc);
                            BindingAddress :=
                              JoinHostPort (GrpcIP (GrpcInnerAddress lc))
                                (Itoa (GrpcPort (GrpcInnerAddress lc)));
                            MigrationsDir := migrationsDir;
                            bs_ModuleName := ModuleName lc |})
            end
        end
    end = Some (Err e) ->
    (exists e0,
       json_Marshal c (GenerateConfigSchema c remoteConfig) = Err e0 /\
       e = withMessage e0 "marshal schema") \/
    (exists e0 msg,
       readDefaultRemoteConfig c isDev lc = Err (withMessage e0 msg) /\
       msg ∈ ["resolve path"; "read file"; "unmarshal json"] /\
       e = withMessage (withMessage e0 msg) "read default remote config") \/
    (isDev = false /\ MigrationsDirPath lc = "" /\
     exists e0,
       os_Executable c = Err e0 /\
       e = withMessage (withMessage e0 "get executable path")
                       "resolve migrations dir path")) as Htail.
  { intros host.
    destruct (json_Marshal c _) as [sd|e0]; [|intros [= <-]; left; eauto].
    destruct (readDefaultRemoteConfig c isDev lc) as [dc|e1] eqn:Hd.
    - destruct (migrationsDirPath c isDev lc) as [md|e1] eqn:Hmd; [done|].
      intros [= <-]. right; right. revert Hmd. unfold migrationsDirPath.
      destruct (String.eqb_spec (MigrationsDirPath lc) "") as [Hm|Hm]; simpl;
        [|done].
      destruct isDev; [done|]. intros (e0 & He0 & ->)%relativePathFromBin_Err.
      eauto.
    - intros [= <-]. right; left.
      destruct (readDefaultRemoteConfig_Err _ _ _ _ Hd) as (e0 & msg & -> & Hmsg).
      eauto. }
  destruct (String.eqb_spec (GrpcIP (GrpcOuterAddress lc)) "") as [Hip|Hip].
  - destruct (hosts !! 0) as [target|]; [|done]. unfold resolveHost.
    destruct (net_Dial c "udp" target) as [conn|e0] eqn:Hdial.
    + intros H. do 3 right. by apply (Htail (LocalAddrIPv4 conn)).
    + intros [= <-]. right; right; left. eauto.
  - intros H. do 3 right. by apply (Htail (GrpcIP (GrpcOuterAddress lc))).
Qed.
End BootstrapErrors.

Section RunBlocked.
Context {World : Type}.
Implicit Types (a : Application (World := World)) (s : State (World := World)).

(** X20.  [Run] does not return while a runner does not: when some
    registered runner never returns, [Run] never returns, under any
    schedule and whether or not the context is cancelled. *)
Theorem Run_never_returns_without_runner a w s i runner :
  runners a !! i = Some runner ->
  (forall w' d, (Runner_Run runner w' d).2 = None) ->
  reachable a w s ->
  (forall ret, st_main s <> Returned ret) /\
  st_goroutines s !! i <> Some Exited /\
  i ∉ (st_returns s).*1.
Proof.
  intros Hr Hnever HI%reachable_inv.
  assert (i ∉ (st_returns s).*1) as Hnot.
  { intros ([j r] & -> & Hin)%list_elem_of_fmap. simpl in Hr.
    destruct (inv_returns_real _ _ HI _ _ Hin) as (runner' & w' & d & Hr' & Hcall).
    assert (runner' = runner) as -> by congruence.
    rewrite Hnever in Hcall. done. }
  assert (st_goroutines s !! i <> Some Exited) as Hne.
  { intros Hex. apply (inv_exited _ _ HI) in Hex.
    apply list_elem_of_fmap in Hex as ([j r'] & -> & Hin).
    destruct (inv_arrived _ _ HI _ _ Hin) as (runner' & r & _ & Hret & _).
    apply Hnot. apply list_elem_of_fmap. by exists (j, r). }
  split; [|done]. intros ret Hm.
  pose proof (inv_main _ _ HI) as Hmain. rewrite Hm in Hmain.
  destruct Hmain as (Hlen & Hall & _). rewrite Forall_lookup in Hall.
  destruct (lookup_lt_is_Some_2 (st_goroutines s) i) as [g Hg].
  { apply lookup_lt_Some in Hr. lia. }
  apply Hne. by rewrite Hg, (Hall _ _ Hg).
Qed.
End RunBlocked.

Lemma path_resolvers_fail_iff_witness :
  defaultRemoteConfigPath
    (sampleCollab sampleLocal (Err (errorString "no /proc"))) false sampleLocal
  = Err (withMessage (errorString "no /proc") "get executable path").
Proof.
  apply (proj1 (path_resolvers_fail_iff
                  (sampleCollab sampleLocal (Err (errorString "no /proc")))
                  false sampleLocal _)).
  split; [reflexivity|]. split; [reflexivity|].
  exists (errorString "no /proc"). split; reflexivity.
Defined.

Lemma bootstrap_success_witness :
  exists b,
    bootstrap (sampleCollab sampleLocal (Ok "/opt/app/service")) false
      (freshApp quietLogger) "1.2.0" "{}" ["orders/list"] = Some (Ok b) /\
    BindingAddress b = "0.0.0.0:9999" /\
    ClusterCli b
    = ({| mi_ModuleName := "orders"; mi_ModuleVersion := "1.2.0";
          mi_GrpcOuterAddress :=
            {| AddrIP := "192.168.0.7"; AddrPort := "9999" |};
          mi_Endpoints := ["orders/list"] |},
       ["10.0.0.1:9001"; "10.0.0.2:9002"]) /\
    MigrationsDir b = "/opt/app/migrations".
Proof.
  eexists. split; [reflexivity|].
  destruct (bootstrap_success
              (sampleCollab sampleLocal (Ok "/opt/app/service")) false
              (freshApp quietLogger) "1.2.0" "{}" ["orders/list"] _ eq_refl)
    as (lc & hosts & host & sd & dc & Hread & _).
  repeat split; reflexivity.
Defined.

Lemma bootstrap_ignores_dial_witness :
  bootstrap (withDial (sampleCollab sampleLocalExplicit (Ok "/opt/app/service"))
               (fun _ _ => Err (errorString "network unreachable")))
    false (freshApp quietLogger) "1.2.0" "{}" []
  = bootstrap (sampleCollab sampleLocalExplicit (Ok "/opt/app/service"))
      false (freshApp quietLogger) "1.2.0" "{}" [].
Proof.
  apply (bootstrap_ignores_dial
           (sampleCollab sampleLocalExplicit (Ok "/opt/app/service")) _ false
           (freshApp quietLogger) "1.2.0" "{}" [] sampleLocalExplicit eq_refl).
  discriminate.
Defined.

Lemma bootstrap_ignores_executable_witness :
  bootstrap (withExecutable (sampleCollab sampleLocal (Ok "/opt/app/service"))
               (Err (errorString "no /proc")))
    true (freshApp quietLogger) "1.2.0" "{}" []
  = bootstrap (sampleCollab sampleLocal (Ok "/opt/app/service"))
      true (freshApp quietLogger) "1.2.0" "{}" [].
Proof.
  apply (bootstrap_ignores_executable
           (sampleCollab sampleLocal (Ok "/opt/app/service")) _ true
           (freshApp quietLogger) "1.2.0" "{}" [] sampleLocal eq_refl).
  left. reflexivity.
Defined.

Lemma bootstrap_errors_witness :
  bootstrap (sampleCollab sampleLocalMismatch (Ok "/opt/app/service")) false
    (freshApp quietLogger) "1.2.0" "{}" []
  = Some (Err (errorString
      "grpcInnerAddress.port is not equal grpcOuterAddress.port. potential mistake")) /\
  exists lc,
    Config_Read (sampleCollab sampleLocalMismatch (Ok "/opt/app/service"))
      (cfg (freshApp quietLogger)) = Ok lc.
Proof.
  split; [reflexivity|].
  destruct (bootstrap_errors
              (sampleCollab sampleLocalMismatch (Ok "/opt/app/service")) false
              (freshApp quietLogger) "1.2.0" "{}" [] _ eq_refl)
    as [(e0 & H & _)|(lc & H & _)]; [discriminate H|].
  exists lc. exact H.
Defined.

Lemma New_errors_witness :
  New (fun _ : list unit => Err (errorString "no such file"))
      (fun _ => Ok quietLogger) false []
  = Err (withMessage (errorString "no such file") "create config") /\
  Error (withMessage (errorString "no such file") "create config")
  = "create config: no such file".
Proof.
  split; [reflexivity|].
  destruct (New_errors (fun _ : list unit => Err (errorString "no such file"))
              (fun _ => Ok quietLogger) false [] _ eq_refl)
    as [(e0 & H0 & _ & Hmsg & _)|(c0 & opts & e0 & H0 & _)];
    [|discriminate H0].
  injection H0 as <-. exact Hmsg.
Defined.

Lemma New_logger_options_witness :
  exists opts, opts = [WithDevelopmentMode; WithLevel DebugLevel].
Proof.
  destruct (New_logger_options (fun _ : list unit => Ok sampleConfig)
              (fun _ => Ok quietLogger) true [] (freshApp quietLogger) eq_refl)
    as (opts & _ & _ & Hdev & _).
  exists opts. exact (Hdev eq_refl).
Defined.

Lemma Run_first_error_is_final_witness :
  err (st_group stWaitBoom)
  = Some (withMessage (errorString "boom") "start runner[*kafka.Consumer]") /\
  forall ret, st_main stWaitBoom = Returned ret ->
    ret = Some (withMessage (errorString "boom") "start runner[*kafka.Consumer]").
Proof.
  apply (Run_first_error_is_final appWaitBoom [] stBoomRecorded
           [ActGo 0; ActGo 0; ActMain] stWaitBoom _
           (ex_intro _ schedBoomRecorded eq_refl) eq_refl eq_refl).
Defined.

Lemma Run_each_runner_once_witness :
  length (st_goroutines stOvertake) <= length (runners appBoomCrash) /\
  NoDup (st_returns stOvertake).*1.
Proof.
  destruct (Run_each_runner_once appBoomCrash [] stOvertake
              (ex_intro _ schedOvertake eq_refl)) as (H1 & H2 & _).
  split; [exact H1|exact H2].
Defined.

Lemma Run_error_comes_from_a_runner_witness :
  exists i runner e0,
    runners appBoomCrash !! i = Some runner /\
    (i, Some e0) ∈ st_returns stOvertake /\
    withMessage (errorString "crash") "start runner[*cron.Scheduler]"
    = withMessage e0 ("start runner[" +:+ runnerType runner +:+ "]").
Proof.
  destruct (Run_error_comes_from_a_runner appBoomCrash [] stOvertake _
              (ex_intro _ schedOvertake eq_refl) eq_refl)
    as (i & runner & e0 & w' & d & Hr & _ & Hin & He & _).
  exists i, runner, e0. split; [exact Hr|]. split; [exact Hin|exact He].
Defined.

Lemma runners_appWaitBoom_cooperative : cooperative (runners appWaitBoom).
Proof.
  intros runner w Hin. apply list_elem_of_In in Hin. simpl in Hin.
  destruct Hin as [<-|[<-|[]]]; simpl; eauto.
Defined.

Lemma Run_returns_once_cancelled_witness :
  Run appWaitBoom schedSpawned (start []) = Some stSpawned /\
  exists sched s' ret,
    exec (runners appWaitBoom) (ActCancel :: sched) stSpawned = Some s' /\
    st_main s' = Returned ret.
Proof.
  split; [reflexivity|].
  exact (proj2 (Run_returns_once_cancelled appWaitBoom [] stSpawned
                  (ex_intro _ schedSpawned eq_refl)
                  runners_appWaitBoom_cooperative)).
Defined.

Lemma Run_never_returns_without_runner_witness :
  Run appStuck schedStuck (start []) = Some stStuck /\
  st_main stStuck = Waiting /\
  (forall ret, st_main stStuck <> Returned ret) /\
  st_goroutines stStuck !! 1 <> Some Exited.
Proof.
  split; [reflexivity|]. split; [reflexivity|].
  destruct (Run_never_returns_without_runner appStuck [] stStuck 1 runnerStuck
              eq_refl (fun _ _ => eq_refl)
              (ex_intro _ schedStuck eq_refl)) as (H1 & H2 & _).
  split; [exact H1|exact H2].
Defined.

Lemma Shutdown_logs_exactly_failures_witness :
  logged (Shutdown appXYZ newContext []).2
  = [(errorString "disk full", [("closer", "*os.File")])] /\
  logged (Shutdown (AddClosers (freshApp quietLogger) [closerX; closerZ])
            newContext []).2 = [] /\
  (Shutdown (AddClosers (freshApp quietLogger) [closerX; closerZ])
     newContext []).1.2
  = ["logger closed"; "db closed"; "redis closed"].
Proof.
  destruct (Shutdown_logs_exactly_failures appXYZ newContext [])
    as (_ & _ & Hlog & _).
  split; [exact Hlog|].
  destruct (Shutdown_logs_exactly_failures
              (AddClosers (freshApp quietLogger) [closerX; closerZ])
              newContext []) as (_ & _ & _ & _ & _ & Hnil).
  apply Hnil. intros [|[|[|i]]] c Hi; simpl in Hi; try discriminate Hi;
    injection Hi as <-; reflexivity.
Defined.

Lemma Shutdown_twice_witness :
  (Shutdown appXYZ AllDone (Shutdown appXYZ newContext []).1.2).1.2
  = ["logger closed"; "db closed"; "error: disk full"; "redis closed";
     "logger closed"; "db closed"; "error: disk full"; "redis closed"].
Proof.
  exact (proj2 (proj2 (proj2 (proj2 (proj2
           (Shutdown_twice appXYZ newContext [])))))).
Defined.
